(** * KDDockWidgets: the Layout coordinator (src/core/Layout.cpp)

    A shallow embedding of [KDDockWidgets::Core::Layout] and of the parts of
    [Item], [ItemContainer], [Group], [View] and [LayoutSaver] it calls into,
    followed by the properties of resizing, size constraints, close events,
    placeholder restoring, item removal and layout (de)serialization.

    Conventions.
    - C++ objects reached through pointers are values threaded through the
      functions; a method that mutates [this] returns the new [Layout].
    - A null pointer is [None]; dereferencing it, or failing a [Q_ASSERT],
      ends the run and is the result [None] of an [option]-valued function.
      [Q_ASSERT] is taken as active, as in a debug build; where the build
      matters, the [QT_NO_DEBUG] variant is given beside it.
    - [LayoutSaver::restoreInProgress()], a process-wide flag that Layout.cpp
      only reads, is passed as the first argument [restoreInProgress].
    - [int] values are [Z]; Layout.cpp only compares them and takes maxima. *)

From stdpp Require Import prelude strings gmap.

Local Open Scope string_scope.
Local Open Scope list_scope.
Set Warnings "-register-all,-clear-no-such-hyp".

(** ** Sizes *)

(** [QSize]: a width and a height. *)
Record QSize : Type := mkQSize { width : Z; height : Z }.

#[global] Instance QSize_eq_dec : EqDecision QSize.
Proof. solve_decision. Defined.

(** [QSize::expandedTo]: the maximum, width by width and height by height. *)
Definition expandedTo (a b : QSize) : QSize :=
  mkQSize (Z.max (width a) (width b)) (Z.max (height a) (height b)).

(** [a] fits in [b]: no dimension of [a] exceeds that of [b]. *)
Definition QSize_le (a b : QSize) : Prop :=
  (width a ≤ width b)%Z ∧ (height a ≤ height b)%Z.

#[global] Instance QSize_le_dec a b : Decision (QSize_le a b).
Proof. unfold QSize_le. apply _. Defined.

(** ** Dock widgets and groups *)

(** A [DockWidget] is referenced, never owned, by the layout: its unique
    name stands for it. *)
Abbreviation DockWidget := string.

(** Modelled from the spec: [Core::Group], whose class is not among the
    sources: a tab-stack of dock widgets with its current tab and its
    visibility. [group_id] is [view()->id()], the identifier the persisted
    layout refers to. *)
Record Group : Type := mkGroup {
  group_id : string;
  dockWidgets : list DockWidget;
  currentTabIndex : Z;
  group_isVisible : bool
}.

#[global] Instance Group_eq_dec : EqDecision Group.
Proof. solve_decision. Defined.

(** Modelled from the spec: the constructor [Group::Group(View *parent)],
    which is not among the sources: a new group has no dock widget yet.
    [id] is the identifier of the view the allocation creates. *)
Definition Group_new (id : string) : Group :=
  mkGroup id [] (-1) false.

(** Modelled from the spec: [Group::dockWidgetCount], the number of tabs. *)
Definition Group_dockWidgetCount (g : Group) : Z :=
  Z.of_nat (length (dockWidgets g)).

(** Modelled from the spec: the active tab after a dock widget was added:
    4.3 leaves tab index management to the group, and 8 asks that the widget
    added to an empty group becomes the active tab. *)
Definition Group_tabIndexAfterAdd (g : Group) : Z :=
  match dockWidgets g with
  | [] => 0%Z
  | _ :: _ => currentTabIndex g
  end.

(** Modelled from the spec: [Group::insertWidget(dw, index)], which is not
    among the sources: [dw] becomes the tab at position [index]. Layout.cpp
    only calls it with [index <= dockWidgetCount()]. *)
Definition Group_insertWidget (dw : DockWidget) (index : Z) (g : Group) : Group :=
  let n := Z.to_nat index in
  mkGroup (group_id g)
          (take n (dockWidgets g) ++ dw :: drop n (dockWidgets g))
          (Group_tabIndexAfterAdd g)
          (group_isVisible g).

(** Modelled from the spec: [Group::addTab(dw)], which is not among the
    sources: [dw] is appended as the last tab. *)
Definition Group_addTab (dw : DockWidget) (g : Group) : Group :=
  mkGroup (group_id g)
          (dockWidgets g ++ [dw])
          (Group_tabIndexAfterAdd g)
          (group_isVisible g).

(** Modelled from the spec: [Group::setVisible], the visibility toggle. *)
Definition Group_setVisible (b : bool) (g : Group) : Group :=
  mkGroup (group_id g) (dockWidgets g) (currentTabIndex g) b.

(** ** Items *)

Inductive Orientation : Type := Vertical | Horizontal.

#[global] Instance Orientation_eq_dec : EqDecision Orientation.
Proof. solve_decision. Defined.

(** Modelled from the spec: [Core::Item], whose class is not among the
    sources, for the nodes below the root of the layout tree: a leaf slot,
    which hosts the view of a group or is a placeholder without guest, or a
    nested split of ordered children. The geometry of these nodes is
    distributed by [ItemContainer] code that is not among the sources and
    is left out. *)
Inductive Item : Type :=
  | Leaf (guest : option Group)
  | Container (o : Orientation) (children : list Item).

(** Modelled from the spec: [Core::ItemContainer], whose class is not among
    the sources, as [Layout::m_rootItem] uses it: the root split, with the
    size and the minimum size that Layout.cpp reads and writes. *)
Record ItemContainer : Type := mkItemContainer {
  m_size : QSize;
  m_minSize : QSize;
  m_orientation : Orientation;
  m_children : list Item
}.

(** Modelled from the spec: [Item::isContainer]. *)
Definition Item_isContainer (item : Item) : bool :=
  match item with
  | Leaf _ => false
  | Container _ _ => true
  end.

(** Modelled from the spec: [Item::isPlaceholder]: a leaf that retains its
    slot but has no guest. *)
Definition Item_isPlaceholder (item : Item) : bool :=
  match item with
  | Leaf None => true
  | _ => false
  end.

(** Modelled from the spec: [Item::asGroupController]: the group whose view
    the item hosts, null for a placeholder and for a container. *)
Definition Item_asGroupController (item : Item) : option Group :=
  match item with
  | Leaf guest => guest
  | Container _ _ => None
  end.

(** Modelled from the spec: [Item::restore(guestView)]: the placeholder
    hosts [guest] again. *)
Definition Item_restore (guest : Group) (item : Item) : Item :=
  match item with
  | Leaf _ => Leaf (Some guest)
  | Container o children => Container o children
  end.

(** The group an item points to is shared with the item: a call on the
    group pointer is seen through the item afterwards. *)
Definition Item_storeGroup (g : Group) (item : Item) : Item :=
  match item with
  | Leaf (Some _) => Leaf (Some g)
  | _ => item
  end.

(** Modelled from the spec: [ItemContainer::items_recursive], the recursive
    item enumeration: the leaf items, children first to last. *)
Fixpoint Item_items_recursive (item : Item) : list Item :=
  match item with
  | Leaf _ => [item]
  | Container _ children => children ≫= Item_items_recursive
  end.

(** Modelled from the spec: [ItemContainer::items_recursive] on the root
    item. *)
Definition items_recursive (root : ItemContainer) : list Item :=
  m_children root ≫= Item_items_recursive.

(** Modelled from the spec: [Item::size], the size of the container. *)
Definition ItemContainer_size (root : ItemContainer) : QSize := m_size root.

(** Modelled from the spec: [Item::minSize], the minimum size of the
    container; a [const] method, as its wrapper in Item_c.cpp shows. *)
Definition ItemContainer_minSize (root : ItemContainer) : QSize := m_minSize root.

(** Modelled from the spec: [Item::setMinSize], which stores the minimum
    size. *)
Definition ItemContainer_setMinSize (sz : QSize) (root : ItemContainer) : ItemContainer :=
  mkItemContainer (m_size root) sz (m_orientation root) (m_children root).

(** Modelled from the spec: [ItemContainer::setSize_recursive], which is not
    among the sources: the container takes the size [sz] (and hands it down
    to its children, whose geometry is left out). *)
Definition setSize_recursive (sz : QSize) (root : ItemContainer) : ItemContainer :=
  mkItemContainer sz (m_minSize root) (m_orientation root) (m_children root).

(** ** The host view *)

(** Modelled from the spec: the host [View] of the layout, a collaborator
    of the host toolkit: its size, and the [resize] calls it has received,
    latest first. *)
Record View : Type := mkView {
  view_size : QSize;
  view_resizeCalls : list QSize
}.

(** Modelled from the spec: [View::resize(size)], which resizes the
    on-screen widget. *)
Definition View_resize (sz : QSize) (v : View) : View :=
  mkView sz (sz :: view_resizeCalls v).

(** ** The layout *)

Record Layout : Type := mkLayout {
  m_rootItem : ItemContainer;
  m_inResizeEvent : bool;
  m_view : View
}.

Definition with_rootItem (root : ItemContainer) (l : Layout) : Layout :=
  mkLayout root (m_inResizeEvent l) (m_view l).
Definition with_inResizeEvent (b : bool) (l : Layout) : Layout :=
  mkLayout (m_rootItem l) b (m_view l).
Definition with_view (v : View) (l : Layout) : Layout :=
  mkLayout (m_rootItem l) (m_inResizeEvent l) v.

(** [Layout::layoutMinimumSize] and [Layout::layoutSize]. *)
Definition layoutMinimumSize (l : Layout) : QSize :=
  ItemContainer_minSize (m_rootItem l).
Definition layoutSize (l : Layout) : QSize :=
  ItemContainer_size (m_rootItem l).

(** [Layout::setLayoutSize]. *)
Definition setLayoutSize (restoreInProgress : bool) (size : QSize) (l : Layout) : Layout :=
  if bool_decide (size ≠ layoutSize l) then
    let l1 := with_rootItem (setSize_recursive size (m_rootItem l)) l in
    if negb (m_inResizeEvent l1) && negb restoreInProgress
    then with_view (View_resize size (m_view l1)) l1
    else l1
  else l.

(** [Layout::setLayoutMinimumSize]. *)
Definition setLayoutMinimumSize (restoreInProgress : bool) (sz : QSize) (l : Layout) : Layout :=
  if bool_decide (sz ≠ ItemContainer_minSize (m_rootItem l)) then
    let l1 :=
      setLayoutSize restoreInProgress
        (expandedTo (layoutSize l) (ItemContainer_minSize (m_rootItem l))) l in
    with_rootItem (ItemContainer_setMinSize sz (m_rootItem l1)) l1
  else l.

(** [Layout::updateSizeConstraints]; the [qCDebug] line prints and changes
    nothing. *)
Definition updateSizeConstraints (restoreInProgress : bool) (l : Layout) : Layout :=
  let newMinSize := ItemContainer_minSize (m_rootItem l) in
  setLayoutMinimumSize restoreInProgress newMinSize l.

(** [Layout::onResize]. [QScopedValueRollback] sets [m_inResizeEvent] for
    the body and puts the earlier value back when the scope is left. *)
Definition onResize (restoreInProgress : bool) (newSize : QSize) (l : Layout) : bool * Layout :=
  let saved := m_inResizeEvent l in
  let l1 := with_inResizeEvent true l in
  let l2 := if negb restoreInProgress then setLayoutSize restoreInProgress newSize l1 else l1 in
  (false, with_inResizeEvent saved l2).

(** [Layout::groups]: the groups of the items, in enumeration order. *)
Definition groups (l : Layout) : list Group :=
  omap Item_asGroupController (items_recursive (m_rootItem l)).

(** ** Close events *)

(** Modelled from the spec: [CloseEvent], the cancellable close
    notification: its accept flag. *)
Record CloseEvent : Type := mkCloseEvent { m_accept : bool }.

(** Modelled from the spec: [accept()] marks the event accepted. *)
Definition CloseEvent_accept (e : CloseEvent) : CloseEvent := mkCloseEvent true.

(** Modelled from the spec: [ignore()] marks the event not accepted. *)
Definition CloseEvent_ignore (e : CloseEvent) : CloseEvent := mkCloseEvent false.

(** Modelled from the spec: [isAccepted()] reads the flag. *)
Definition isAccepted (e : CloseEvent) : bool := m_accept e.

Section CloseEvents.

(** [Platform::instance()->sendEvent(group->view(), e)]: the event is handed
    to the view of the group, whose handler answers by leaving or clearing
    the accept flag. The handlers belong to the host toolkit and to the
    groups; the layout is given them. *)
Variable sendEvent : Group → CloseEvent → CloseEvent.

(** The loop of [Layout::onCloseEvent] over the groups; the second component
    lists the groups the event was sent to, in the order of the calls. *)
Fixpoint sendToGroups (gs : list Group) (e : CloseEvent) : CloseEvent * list Group :=
  match gs with
  | [] => (e, [])
  | group :: rest =>
      let e1 := sendEvent group e in
      if negb (isAccepted e1) then (e1, [group])
      else let '(e2, sent) := sendToGroups rest e1 in (e2, group :: sent)
  end.

(** [Layout::onCloseEvent]. *)
Definition onCloseEvent (l : Layout) (e : CloseEvent) : CloseEvent * list Group :=
  sendToGroups (groups l) (CloseEvent_accept e).

(** A group vetoes when its handler answers an accepted close event by
    marking it not accepted. *)
Definition vetoes (g : Group) : Prop :=
  isAccepted (sendEvent g (mkCloseEvent true)) = false.

End CloseEvents.

(** ** Item pointers *)

(** An [Item *] into the tree of a layout is the list of child indices that
    leads from the root item to the node; the empty path is the root item
    itself. A null pointer is [None]. *)
Abbreviation ItemPath := (list nat).

Fixpoint Item_at (p : ItemPath) (item : Item) : option Item :=
  match p with
  | [] => Some item
  | i :: p' =>
      match item with
      | Leaf _ => None
      | Container _ children => children !! i ≫= Item_at p'
      end
  end.

(** The item a path points to; the root item is no leaf and no nested
    container, and is handled where it is met. *)
Definition itemAt (p : ItemPath) (root : ItemContainer) : option Item :=
  match p with
  | [] => None
  | i :: p' => m_children root !! i ≫= Item_at p'
  end.

(** Writing through the pointer: the node at [p] becomes [new]. *)
Fixpoint Item_store (p : ItemPath) (new : Item) (item : Item) : Item :=
  match p with
  | [] => new
  | i :: p' =>
      match item with
      | Leaf guest => Leaf guest
      | Container o children =>
          Container o (alter (Item_store p' new) i children)
      end
  end.

Definition storeItem (p : ItemPath) (new : Item) (root : ItemContainer) : ItemContainer :=
  match p with
  | [] => root
  | i :: p' =>
      mkItemContainer (m_size root) (m_minSize root) (m_orientation root)
                      (alter (Item_store p' new) i (m_children root))
  end.

(** ** Restoring a placeholder *)

(** [Layout::restorePlaceholder]. [fresh] is the identifier of the view of
    the group that [new Core::Group(view())] allocates. [Q_ASSERT(group)]
    fails on an item that has no group after the first step. *)
Definition restorePlaceholder (fresh : string) (dw : DockWidget) (item : ItemPath)
    (tabIndex : Z) (l : Layout) : option Layout :=
  it ← itemAt item (m_rootItem l);
  let it1 :=
    if Item_isPlaceholder it then
      let newGroup := Group_new fresh in
      Item_restore newGroup it
    else it in
  group ← Item_asGroupController it1;
  let group1 :=
    if negb (tabIndex =? -1)%Z && (Group_dockWidgetCount group >=? tabIndex)%Z
    then Group_insertWidget dw tabIndex group
    else Group_addTab dw group in
  let group2 := Group_setVisible true group1 in
  Some (with_rootItem (storeItem item (Item_storeGroup group2 it1) (m_rootItem l)) l).

(** The group hosted by the item a path points to. *)
Definition groupAt (p : ItemPath) (l : Layout) : option Group :=
  itemAt p (m_rootItem l) ≫= Item_asGroupController.

(** ** Removing an item *)

(** [Item::parentContainer], on pointers: the path without its last index;
    the root item has no parent. *)
Definition Item_parentContainer (p : ItemPath) : option ItemPath :=
  match p with
  | [] => None
  | _ :: _ => Some (removelast p)
  end.

(** Modelled from the spec: [ItemContainer::removeItem(item)], which is not
    among the sources: the container at [parent] gives up its child number
    [i]; [None] when the pointers do not lead to such a child. *)
Fixpoint Item_removeChild (parent : ItemPath) (i : nat) (item : Item) : option Item :=
  match item with
  | Leaf _ => None
  | Container o children =>
      match parent with
      | [] =>
          if decide (i < length children)
          then Some (Container o (delete i children))
          else None
      | j :: parent' =>
          child ← children !! j;
          child' ← Item_removeChild parent' i child;
          Some (Container o (<[j := child']> children))
      end
  end.

(** Modelled from the spec: [ItemContainer::removeItem(item)], from the
    root item down to the container at [parent]. *)
Definition ItemContainer_removeItem (parent : ItemPath) (i : nat) (root : ItemContainer)
    : option ItemContainer :=
  match parent with
  | [] =>
      if decide (i < length (m_children root))
      then Some (mkItemContainer (m_size root) (m_minSize root) (m_orientation root)
                                 (delete i (m_children root)))
      else None
  | j :: parent' =>
      child ← m_children root !! j;
      child' ← Item_removeChild parent' i child;
      Some (mkItemContainer (m_size root) (m_minSize root) (m_orientation root)
                            (<[j := child']> (m_children root)))
  end.

(** The text [Layout::removeItem] hands to [qWarning]. *)
Definition nullptr_item_warning : string := "nullptr item".

(** [Layout::removeItem]: the new layout and the diagnostics written. *)
Definition removeItem (item : option ItemPath) (l : Layout) : option (Layout * list string) :=
  match item with
  | None => Some (l, [nullptr_item_warning])
  | Some p =>
      parent ← Item_parentContainer p;
      i ← last p;
      root' ← ItemContainer_removeItem parent i (m_rootItem l);
      Some (with_rootItem root' l, [])
  end.

(** ** The persisted layout record *)

(** Modelled from the spec: [LayoutSaver::Group], the content record of a
    group: its identifier, its dock widgets and its active tab index. *)
Record LayoutSaver_Group : Type := mkLayoutSaver_Group {
  saved_id : string;
  saved_dockWidgets : list DockWidget;
  saved_currentTabIndex : Z
}.

(** Modelled from the spec: the tree description of the record, the nested
    split and leaf structure, a leaf naming the group it hosts by
    identifier. *)
Inductive VariantItem : Type :=
  | VLeaf (guestId : option string)
  | VContainer (o : Orientation) (children : list VariantItem).

(** Modelled from the spec: the description of the root item, with its
    size and minimum size. *)
Record VariantMap : Type := mkVariantMap {
  v_size : QSize;
  v_minSize : QSize;
  v_orientation : Orientation;
  v_children : list VariantItem
}.

(** Modelled from the spec: [LayoutSaver::MultiSplitter], with the fields
    [layout] and [groups] that Layout.cpp fills and reads: the tree
    description, and the map from group identifiers to content records. *)
Record LayoutSaver_MultiSplitter : Type := mkMultiSplitter {
  ms_layout : VariantMap;
  ms_groups : gmap string LayoutSaver_Group
}.

(** Modelled from the spec: [Group::serialize], which is not among the
    sources: the list of dock widgets and the current tab index, under the
    identifier of the view of the group. *)
Definition Group_serialize (g : Group) : LayoutSaver_Group :=
  mkLayoutSaver_Group (group_id g) (dockWidgets g) (currentTabIndex g).

(** Modelled from the spec: [Group::deserialize], which is not among the
    sources: a group rebuilt from its record, with the dock widgets and the
    tab index of the record, under the identifier of the record; it is not
    shown yet. *)
Definition Group_deserialize (saved : LayoutSaver_Group) : Group :=
  mkGroup (saved_id saved) (saved_dockWidgets saved) (saved_currentTabIndex saved) false.

(** Modelled from the spec: [ItemContainer::toVariantMap], the tree-to-map
    conversion, which is not among the sources. *)
Fixpoint Item_toVariantMap (item : Item) : VariantItem :=
  match item with
  | Leaf guest => VLeaf (group_id <$> guest)
  | Container o children => VContainer o (Item_toVariantMap <$> children)
  end.

(** Modelled from the spec: [ItemContainer::toVariantMap] on the root
    item. *)
Definition toVariantMap (root : ItemContainer) : VariantMap :=
  mkVariantMap (m_size root) (m_minSize root) (m_orientation root)
               (Item_toVariantMap <$> m_children root).

(** Modelled from the spec: [ItemContainer::fillFromVariantMap], the
    map-to-tree conversion, which is not among the sources: the tree is
    rebuilt from the description, a leaf taking the group its identifier
    names in [groups]; a leaf whose identifier names no group has no guest. *)
Fixpoint Item_fillFromVariantMap (groups : gmap string Group) (v : VariantItem) : Item :=
  match v with
  | VLeaf guestId => Leaf (guestId ≫= λ id, groups !! id)
  | VContainer o children => Container o (Item_fillFromVariantMap groups <$> children)
  end.

(** Modelled from the spec: [ItemContainer::fillFromVariantMap] on the root
    item, which takes its size, minimum size, orientation and children from
    the description. *)
Definition fillFromVariantMap (v : VariantMap) (groups : gmap string Group)
    (root : ItemContainer) : ItemContainer :=
  mkItemContainer (v_size v) (v_minSize v) (v_orientation v)
                  (Item_fillFromVariantMap groups <$> v_children v).

(** [Layout::serialize]. *)
Definition serialize (l : Layout) : LayoutSaver_MultiSplitter :=
  let layout := toVariantMap (m_rootItem l) in
  let items := items_recursive (m_rootItem l) in
  let groups :=
    foldl (λ (acc : gmap string LayoutSaver_Group) item,
             if negb (Item_isContainer item) then
               match Item_asGroupController item with
               | Some group => <[group_id group := Group_serialize group]> acc
               | None => acc
               end
             else acc)
          ∅ items in
  mkMultiSplitter layout groups.

(** One turn of the first loop of [Layout::deserialize]: the group is
    rebuilt from its record and filed under the identifier of the record;
    [Q_ASSERT(!group.id.isEmpty())] fails on an empty identifier. *)
Definition fileGroup (acc : option (gmap string Group)) (group : LayoutSaver_Group)
    : option (gmap string Group) :=
  groups ← acc;
  let f := Group_deserialize group in
  if decide (saved_id group = "") then None
  else Some (<[saved_id group := f]> groups).

(** The first loop of [Layout::deserialize], over the records of [l.groups]. *)
Definition deserialize_groups (saved : list LayoutSaver_Group) : option (gmap string Group) :=
  foldl fileGroup (Some ∅) saved.

(** [Layout::deserialize]. *)
Definition deserialize (restoreInProgress : bool) (l : LayoutSaver_MultiSplitter)
    (this : Layout) : option (bool * Layout) :=
  groups ← deserialize_groups ((map_to_list (ms_groups l)).*2);
  let this1 := with_rootItem (fillFromVariantMap (ms_layout l) groups (m_rootItem this)) this in
  let this2 := updateSizeConstraints restoreInProgress this1 in
  let newLayoutSize :=
    expandedTo (view_size (m_view this2)) (ItemContainer_minSize (m_rootItem this2)) in
  let this3 := with_rootItem (setSize_recursive newLayoutSize (m_rootItem this2)) this2 in
  Some (true, this3).

(** One turn of the first loop of [Layout::deserialize] in a build with
    [QT_NO_DEBUG], where [Q_ASSERT] expands to nothing: the group is filed
    under the identifier of its record, empty or not. *)
Definition fileGroup_QT_NO_DEBUG (groups : gmap string Group) (group : LayoutSaver_Group)
    : gmap string Group :=
  let f := Group_deserialize group in
  <[saved_id group := f]> groups.

(** [Layout::deserialize] in a build with [QT_NO_DEBUG]. *)
Definition deserialize_QT_NO_DEBUG (restoreInProgress : bool) (l : LayoutSaver_MultiSplitter)
    (this : Layout) : bool * Layout :=
  let groups := foldl fileGroup_QT_NO_DEBUG ∅ ((map_to_list (ms_groups l)).*2) in
  let this1 := with_rootItem (fillFromVariantMap (ms_layout l) groups (m_rootItem this)) this in
  let this2 := updateSizeConstraints restoreInProgress this1 in
  let newLayoutSize :=
    expandedTo (view_size (m_view this2)) (ItemContainer_minSize (m_rootItem this2)) in
  let this3 := with_rootItem (setSize_recursive newLayoutSize (m_rootItem this2)) this2 in
  (true, this3).

(** ** What a round trip is asked to keep *)

(** The parent/child structure of a tree: splits, their orientation and the
    order of their children, and for each leaf the identifier of the group
    it hosts, if any. *)
Inductive Structure : Type :=
  | SLeaf (occupant : option string)
  | SSplit (o : Orientation) (children : list Structure).

Fixpoint Item_structure (item : Item) : Structure :=
  match item with
  | Leaf guest => SLeaf (group_id <$> guest)
  | Container o children => SSplit o (Item_structure <$> children)
  end.

Definition structure (l : Layout) : Structure :=
  SSplit (m_orientation (m_rootItem l)) (Item_structure <$> m_children (m_rootItem l)).

(** The membership of a group: its identifier, its dock widgets in tab
    order, and its current tab index. *)
Definition membership (g : Group) : string * list DockWidget * Z :=
  (group_id g, dockWidgets g, currentTabIndex g).

(** The tree with every group replaced by its image under [f]. *)
Fixpoint Item_mapGroups (f : Group → Group) (item : Item) : Item :=
  match item with
  | Leaf guest => Leaf (f <$> guest)
  | Container o children => Container o (Item_mapGroups f <$> children)
  end.

(** A group as it comes back from its own record. *)
Definition Group_reloaded (g : Group) : Group :=
  Group_deserialize (Group_serialize g).

(** The identifiers the tree description of a record refers to. *)
Fixpoint VariantItem_guestIds (v : VariantItem) : list string :=
  match v with
  | VLeaf guestId => option_list guestId
  | VContainer _ children => children ≫= VariantItem_guestIds
  end.

Definition guestIds (l : LayoutSaver_MultiSplitter) : list string :=
  v_children (ms_layout l) ≫= VariantItem_guestIds.

(** A record references an unknown group when its tree description names an
    identifier that its group map does not hold. *)
Definition referencesUnknownGroup (l : LayoutSaver_MultiSplitter) : Prop :=
  ∃ id, id ∈ guestIds l ∧ ms_groups l !! id = None.



(** ** Enumerations and counts *)

(** [Layout::items]. *)
Definition items (l : Layout) : list Item :=
  items_recursive (m_rootItem l).

(** [Layout::dockWidgets]: the dock widgets of the groups, group after
    group. *)
Definition Layout_dockWidgets (l : Layout) : list DockWidget :=
  foldl (λ dockWidgets_ group, dockWidgets_ ++ dockWidgets group) [] (groups l).

(** Modelled from the spec: [Item::isVisible]: an item is visible while it
    hosts a guest, and hidden as a placeholder. *)
Definition Item_isVisible (item : Item) : bool :=
  negb (Item_isPlaceholder item).

(** Modelled from the spec: [ItemContainer::count_recursive], the recursive
    count of the items. *)
Fixpoint Item_count_recursive (item : Item) : Z :=
  match item with
  | Leaf _ => 1
  | Container _ children =>
      foldr (λ child n, Item_count_recursive child + n)%Z 0%Z children
  end.

(** Modelled from the spec: [ItemContainer::count_recursive] on the root
    item. *)
Definition count_recursive (root : ItemContainer) : Z :=
  foldr (λ child n, Item_count_recursive child + n)%Z 0%Z (m_children root).

(** Modelled from the spec: [ItemContainer::visibleCount_recursive], the
    recursive count of the visible items. *)
Fixpoint Item_visibleCount_recursive (item : Item) : Z :=
  match item with
  | Leaf _ => if Item_isVisible item then 1 else 0
  | Container _ children =>
      foldr (λ child n, Item_visibleCount_recursive child + n)%Z 0%Z children
  end.

(** Modelled from the spec: [ItemContainer::visibleCount_recursive] on the
    root item. *)
Definition visibleCount_recursive (root : ItemContainer) : Z :=
  foldr (λ child n, Item_visibleCount_recursive child + n)%Z 0%Z (m_children root).

(** [Layout::count]. *)
Definition count (l : Layout) : Z := count_recursive (m_rootItem l).

(** [Layout::visibleCount]. *)
Definition visibleCount (l : Layout) : Z := visibleCount_recursive (m_rootItem l).

(** [Layout::placeholderCount]. *)
Definition placeholderCount (l : Layout) : Z := (count l - visibleCount l)%Z.

(** ** The signals of the host view *)

(** The two signals of the host view that the constructor [Layout::Layout]
    connects: [layoutInvalidated] to [updateSizeConstraints], and [resized]
    to [onResize]. *)
Inductive ViewSignal : Type :=
  | LayoutInvalidated
  | Resized (size : QSize).

(** What the layout does when the host view emits a signal. *)
Definition onViewSignal (restoreInProgress : bool) (l : Layout) (signal : ViewSignal) : Layout :=
  match signal with
  | LayoutInvalidated => updateSizeConstraints restoreInProgress l
  | Resized size => (onResize restoreInProgress size l).2
  end.

(** ** Finding the main window *)

(** Modelled from the spec: the view type discriminator of the host view
    contract. *)
Inductive ViewType : Type :=
  | ViewType_DropArea
  | ViewType_MDILayout
  | ViewType_MainWindow
  | ViewType_FloatingWindow
  | ViewType_None.

#[global] Instance ViewType_eq_dec : EqDecision ViewType.
Proof. solve_decision. Defined.

(** Modelled from the spec: a view above the host view of the layout: its
    type, its object name, and its controller, which a number stands for. *)
Record ParentView : Type := mkParentView {
  pv_type : ViewType;
  pv_objectName : string;
  pv_controller : nat
}.

(** Modelled from the spec: [View::asMainWindowController]: the controller
    of a view of type main window, null for any other view. *)
Definition asMainWindowController (v : ParentView) : option nat :=
  if decide (pv_type v = ViewType_MainWindow) then Some (pv_controller v) else None.

(** Modelled from the spec: [View::firstParentOfType], the walk up the
    ancestor chain, nearest first, to the first view of the type. The host
    view of a layout is a drop area or an MDI layout, so the walk for a main
    window is one over its ancestors. *)
Definition firstParentOfType (type : ViewType) (ancestors : list ParentView) : option nat :=
  pv_controller <$> List.find (λ v, bool_decide (pv_type v = type)) ancestors.

(** [Layout::mainWindow]. [ancestors] are the views above [view()], its
    parent first; [isQtWidgets] is [Platform::instance()->isQtWidgets()].
    The result [None] is the dereference of the null
    [pw->parentView()]. *)
Definition mainWindow (isQtWidgets : bool) (ancestors : list ParentView) (honourNesting : bool)
    : option (option nat) :=
  let honourNesting := honourNesting && isQtWidgets in
  if honourNesting then
    match firstParentOfType ViewType_MainWindow ancestors with
    | Some c => Some (Some c)
    | None => Some None
    end
  else
    match ancestors with
    | pw :: above =>
        if decide (pv_objectName pw = "MyCentralWidget") then
          match above with
          | ppw :: _ => Some (asMainWindowController ppw)
          | [] => None
          end
        else
          match asMainWindowController pw with
          | Some mw => Some (Some mw)
          | None => Some None
          end
    | [] => Some None
    end.

(** [Layout::isInMainWindow]. *)
Definition isInMainWindow (isQtWidgets : bool) (ancestors : list ParentView)
    (honourNesting : bool) : option bool :=
  mw ← mainWindow isQtWidgets ancestors honourNesting;
  Some (bool_decide (mw ≠ None)).

(** ** Tearing down *)

(** The part of a layout that its teardown reads and writes: [m_rootItem],
    by the host view the root item refers to ([None] is the null pointer),
    [view()], the flag [m_viewDeleted], the number of [delete m_rootItem]
    executed, and whether the dock registry still lists the layout. *)
Record LayoutLifetime : Type := mkLayoutLifetime {
  lt_rootItem : option nat;
  lt_view : option nat;
  m_viewDeleted : bool;
  lt_rootItemsDeleted : nat;
  lt_registered : bool
}.

(** [Layout::viewAboutToBeDeleted]. [m_rootItem->hostView()] dereferences
    the root item, also when it is null. *)
Definition viewAboutToBeDeleted (this : LayoutLifetime) : option LayoutLifetime :=
  match lt_view this with
  | Some view =>
      hostView ← lt_rootItem this;
      let this1 :=
        if decide (view = hostView)
        then mkLayoutLifetime None (lt_view this) (m_viewDeleted this)
                              (S (lt_rootItemsDeleted this)) (lt_registered this)
        else this in
      Some (mkLayoutLifetime (lt_rootItem this1) (lt_view this1) true
                             (lt_rootItemsDeleted this1) (lt_registered this1))
  | None => Some this
  end.

(** [Layout::~Layout]; disconnecting [m_minSizeChangedHandler] touches
    nothing of the above. *)
Definition Layout_destructor (this : LayoutLifetime) : option LayoutLifetime :=
  this1 ←
    (if bool_decide (lt_rootItem this ≠ None) && negb (m_viewDeleted this)
     then viewAboutToBeDeleted this
     else Some this);
  Some (mkLayoutLifetime (lt_rootItem this1) (lt_view this1) (m_viewDeleted this1)
                         (lt_rootItemsDeleted this1) false).

(** [DropArea::~DropArea] of src/qtquick/views/DropArea.cpp, on the layout
    [m_dropArea] it belongs to. *)
Definition DropArea_destructor (freed : bool) (m_dropArea : LayoutLifetime)
    : option LayoutLifetime :=
  if negb freed then viewAboutToBeDeleted m_dropArea else Some m_dropArea.

(** ** The floating window widget *)

(** The types of [QEvent] that [FloatingWindowWidget::event] tells apart. *)
Inductive QEventType : Type :=
  | QEvent_WindowStateChange
  | QEvent_Show
  | QEvent_Other.

#[global] Instance QEventType_eq_dec : EqDecision QEventType.
Proof. solve_decision. Defined.

(** [FloatingWindowWidget], as its [event] method sees it: whether
    [m_screenChangedConnection] holds a connection, how often
    [windowStateChanged] was emitted, and how often [screenChanged] of the
    window handle was connected. *)
Record FloatingWindowWidget : Type := mkFloatingWindowWidget {
  m_screenChangedConnection : bool;
  fw_windowStateChanged : nat;
  fw_screenChangedConnects : nat
}.

(** [FloatingWindowWidget::event], up to the call of the base class
    [FloatingWindow::event], which is not among the sources. The [connect]
    hands back a connection that holds: the window handle exists once
    [QEvent::Show] has come, as the comment in the source says. *)
Definition FloatingWindowWidget_event (ev : QEventType) (this : FloatingWindowWidget)
    : FloatingWindowWidget :=
  let this1 :=
    if decide (ev = QEvent_WindowStateChange)
    then mkFloatingWindowWidget (m_screenChangedConnection this)
                                (S (fw_windowStateChanged this))
                                (fw_screenChangedConnects this)
    else this in
  if bool_decide (ev = QEvent_Show) && negb (m_screenChangedConnection this1)
  then mkFloatingWindowWidget true (fw_windowStateChanged this1)
                              (S (fw_screenChangedConnects this1))
  else this1.

(** ** The callbacks of the item bindings *)

(** [Item_wrapper] of Item_c.cpp: the ten callback pointers of its virtual
    methods, as addresses; 0 is the null pointer. *)
Record Item_wrapper : Type := mkItem_wrapper {
  m_checkSanityCallback : Z;
  m_dumpLayoutCallback : Z;
  m_isVisibleCallback : Z;
  m_maxSizeHintCallback : Z;
  m_minSizeCallback : Z;
  m_setGeometry_recursiveCallback : Z;
  m_setHostViewCallback : Z;
  m_setIsVisibleCallback : Z;
  m_updateWidgetGeometriesCallback : Z;
  m_visibleCount_recursiveCallback : Z
}.

(** [c_KDDockWidgets__Core__Item__registerVirtualMethodCallback]: the
    [switch] over [methodId]. *)
Definition registerVirtualMethodCallback (wrapper : Item_wrapper) (callback : Z)
    (methodId : Z) : Item_wrapper :=
  let '(mkItem_wrapper cs dl iv mx mn sg sh si uw vc) := wrapper in
  if (methodId =? 760)%Z then mkItem_wrapper callback dl iv mx mn sg sh si uw vc
  else if (methodId =? 767)%Z then mkItem_wrapper cs callback iv mx mn sg sh si uw vc
  else if (methodId =? 784)%Z then mkItem_wrapper cs dl callback mx mn sg sh si uw vc
  else if (methodId =? 793)%Z then mkItem_wrapper cs dl iv callback mn sg sh si uw vc
  else if (methodId =? 794)%Z then mkItem_wrapper cs dl iv mx callback sg sh si uw vc
  else if (methodId =? 811)%Z then mkItem_wrapper cs dl iv mx mn callback sh si uw vc
  else if (methodId =? 813)%Z then mkItem_wrapper cs dl iv mx mn sg callback si uw vc
  else if (methodId =? 814)%Z then mkItem_wrapper cs dl iv mx mn sg sh callback uw vc
  else if (methodId =? 828)%Z then mkItem_wrapper cs dl iv mx mn sg sh si callback vc
  else if (methodId =? 829)%Z then mkItem_wrapper cs dl iv mx mn sg sh si uw callback
  else wrapper.

(** Which implementation a call of a virtual method of the wrapper runs. *)
Inductive Implementation : Type :=
  | DartCallback (callback : Z)
  | CppItem.

(** The body shared by the virtual methods of [Item_wrapper]: the callback
    when its pointer is set, the method of [Core::Item] otherwise. *)
Definition viaCallback (callback : Z) : Implementation :=
  if decide (callback ≠ 0%Z) then DartCallback callback else CppItem.

(** [Item_wrapper::minSize], [Item_wrapper::minSize_nocallback] and the
    entry point [c_KDDockWidgets__Core__Item__minSize], which calls the
    latter on a wrapper. *)
Definition Item_wrapper_minSize (this : Item_wrapper) : Implementation :=
  viaCallback (m_minSizeCallback this).
Definition Item_wrapper_minSize_nocallback (this : Item_wrapper) : Implementation :=
  CppItem.
Definition c_Item_minSize (thisObj : Item_wrapper) : Implementation :=
  Item_wrapper_minSize_nocallback thisObj.

(** [Item_wrapper::visibleCount_recursive], its [_nocallback] twin and the
    entry point [c_KDDockWidgets__Core__Item__visibleCount_recursive]. *)
Definition Item_wrapper_visibleCount_recursive (this : Item_wrapper) : Implementation :=
  viaCallback (m_visibleCount_recursiveCallback this).
Definition Item_wrapper_visibleCount_recursive_nocallback (this : Item_wrapper)
    : Implementation :=
  CppItem.
Definition c_Item_visibleCount_recursive (thisObj : Item_wrapper) : Implementation :=
  Item_wrapper_visibleCount_recursive_nocallback thisObj.

(** The virtual methods that have a callback, with the identifiers the
    [switch] gives them. *)
Inductive VirtualMethod : Type :=
  | VM_checkSanity | VM_dumpLayout | VM_isVisible | VM_maxSizeHint | VM_minSize
  | VM_setGeometry_recursive | VM_setHostView | VM_setIsVisible
  | VM_updateWidgetGeometries | VM_visibleCount_recursive.

#[global] Instance VirtualMethod_eq_dec : EqDecision VirtualMethod.
Proof. solve_decision. Defined.

Definition methodId (m : VirtualMethod) : Z :=
  match m with
  | VM_checkSanity => 760
  | VM_dumpLayout => 767
  | VM_isVisible => 784
  | VM_maxSizeHint => 793
  | VM_minSize => 794
  | VM_setGeometry_recursive => 811
  | VM_setHostView => 813
  | VM_setIsVisible => 814
  | VM_updateWidgetGeometries => 828
  | VM_visibleCount_recursive => 829
  end.

Definition callbackOf (m : VirtualMethod) (wrapper : Item_wrapper) : Z :=
  match m with
  | VM_checkSanity => m_checkSanityCallback wrapper
  | VM_dumpLayout => m_dumpLayoutCallback wrapper
  | VM_isVisible => m_isVisibleCallback wrapper
  | VM_maxSizeHint => m_maxSizeHintCallback wrapper
  | VM_minSize => m_minSizeCallback wrapper
  | VM_setGeometry_recursive => m_setGeometry_recursiveCallback wrapper
  | VM_setHostView => m_setHostViewCallback wrapper
  | VM_setIsVisible => m_setIsVisibleCallback wrapper
  | VM_updateWidgetGeometries => m_updateWidgetGeometriesCallback wrapper
  | VM_visibleCount_recursive => m_visibleCount_recursiveCallback wrapper
  end.

(** ** Vocabulary of the properties *)

(** The group [restorePlaceholder] works on: the one the item hosts, or the
    newly created one when the item is a placeholder. *)
Definition targetGroup (fresh : string) (guest : option Group) : Group :=
  default (Group_new fresh) guest.

(** The two ways [restorePlaceholder] adds the dock widget. *)
Definition placedBy (dw : DockWidget) (tabIndex : Z) (target : Group) : Group :=
  if negb (tabIndex =? -1)%Z && (Group_dockWidgetCount target >=? tabIndex)%Z
  then Group_insertWidget dw tabIndex target
  else Group_addTab dw target.

(** The groups below an item, in enumeration order. *)
Definition Item_groups (item : Item) : list Group :=
  omap Item_asGroupController (Item_items_recursive item).

(** What the loop of [serialize] does with an item. *)
Definition addGroup (acc : gmap string LayoutSaver_Group) (g : Group)
    : gmap string LayoutSaver_Group :=
  <[group_id g := Group_serialize g]> acc.

(** The size of the last [resized] signal of a run of signals. *)
Definition lastResized (signals : list ViewSignal) : option QSize :=
  last (omap (λ signal, match signal with
                        | Resized size => Some size
                        | LayoutInvalidated => None
                        end) signals).

(** ** Sample layouts *)

Definition editorGroup : Group := mkGroup "g1" ["editor"] 0 true.
Definition consoleGroup : Group := mkGroup "g2" ["console"; "problems"] 1 true.
Definition outlineGroup : Group := mkGroup "g3" ["outline"] 0 true.

(** A window of 100x100 whose resize notification is being handled. *)
Definition resizingLayout : Layout :=
  mkLayout (mkItemContainer (mkQSize 100 100) (mkQSize 40 40) Horizontal
                            [Leaf (Some editorGroup); Leaf None])
           true
           (mkView (mkQSize 100 100) []).

(** A window of 100x100 whose content has come to need 200x150. *)
Definition crampedLayout : Layout :=
  mkLayout (mkItemContainer (mkQSize 100 100) (mkQSize 200 150) Vertical
                            [Leaf (Some editorGroup)])
           false
           (mkView (mkQSize 100 100) []).

(** A window whose slots are all placeholders. *)
Definition vacantLayout : Layout :=
  mkLayout (mkItemContainer (mkQSize 100 100) (mkQSize 0 0) Vertical
                            [Leaf None; Container Horizontal [Leaf None]])
           false
           (mkView (mkQSize 100 100) []).

(** A window with three groups, two of them in a nested split, and a
    placeholder. *)
Definition workbenchLayout : Layout :=
  mkLayout (mkItemContainer (mkQSize 800 600) (mkQSize 300 200) Horizontal
                            [Leaf (Some outlineGroup);
                             Container Vertical
                               [Leaf (Some editorGroup); Leaf None; Leaf (Some consoleGroup)]])
           false
           (mkView (mkQSize 800 600) []).

(** A window of 120x90 that has no content yet. *)
Definition blankLayout : Layout :=
  mkLayout (mkItemContainer (mkQSize 120 90) (mkQSize 0 0) Vertical [])
           false
           (mkView (mkQSize 120 90) []).

(** A record whose tree names a group "ghost" that its group map does not
    hold, next to a nested container without children. *)
Definition danglingRecord : LayoutSaver_MultiSplitter :=
  mkMultiSplitter
    (mkVariantMap (mkQSize 800 600) (mkQSize 300 200) Horizontal
                  [VLeaf (Some "g1"); VLeaf (Some "ghost"); VContainer Vertical []])
    {[ "g1" := Group_serialize editorGroup ]}.

(** * Properties *)

(** ** Resizing *)

Lemma expandedTo_le_r (a b : QSize) : QSize_le b (expandedTo a b).
Proof. unfold QSize_le, expandedTo; simpl. lia. Qed.

(** While the guard is set or a restore is in progress, [setLayoutSize]
    resizes the tree at most: the host view gets no call. *)
Lemma setLayoutSize_guarded (rip : bool) (size : QSize) (l : Layout) :
  m_inResizeEvent l = true ∨ rip = true →
  setLayoutSize rip size l =
    if bool_decide (size ≠ layoutSize l)
    then with_rootItem (setSize_recursive size (m_rootItem l)) l
    else l.
Proof.
  intros Hguard. unfold setLayoutSize.
  case_bool_decide; [|done]. simpl.
  destruct Hguard as [-> | ->]; [done|].
  by rewrite andb_false_r.
Qed.

(** [onResize], unfolded: the tree takes the new size when it differs and no
    restore is in progress; nothing else changes. *)
Lemma onResize_eq (rip : bool) (newSize : QSize) (l : Layout) :
  onResize rip newSize l =
    (false,
     if negb rip && bool_decide (newSize ≠ layoutSize l)
     then with_rootItem (setSize_recursive newSize (m_rootItem l)) l
     else l).
Proof.
  unfold onResize. f_equal.
  destruct rip; simpl.
  - by destruct l.
  - rewrite setLayoutSize_guarded by (by left).
    change (layoutSize (with_inResizeEvent true l)) with (layoutSize l).
    case_bool_decide; by destruct l.
Qed.

(** [onResize] never calls [View::resize] on the host view, whatever the
    guard was on entry: handling a resize notification raises no further
    one. *)
Lemma onResize_view (rip : bool) (newSize : QSize) (l : Layout) :
  m_view (onResize rip newSize l).2 = m_view l.
Proof. rewrite onResize_eq. simpl. by case_match. Qed.

(** C3, as the claim states it, fails: with the guard set, a call with a new
    size resizes the item tree. *)
Lemma onResize_reentrant_resizes_tree :
  m_inResizeEvent resizingLayout = true
  ∧ layoutSize resizingLayout = mkQSize 100 100
  ∧ layoutSize (onResize false (mkQSize 200 200) resizingLayout).2 = mkQSize 200 200
  ∧ m_rootItem (onResize false (mkQSize 200 200) resizingLayout).2
    ≠ m_rootItem resizingLayout.
Proof. repeat split; try reflexivity. discriminate. Qed.

(** C3 (amended): a call to [onResize] made while [m_inResizeEvent] is set
    returns false, sends the host view no [resize] and leaves it and the
    guard as they were; the item tree takes the new size when that differs
    from the layout size and no restore is in progress, and is unchanged
    otherwise. *)
Theorem onResize_reentrant (rip : bool) (newSize : QSize) (l : Layout) :
  m_inResizeEvent l = true →
  (onResize rip newSize l).1 = false
  ∧ m_view (onResize rip newSize l).2 = m_view l
  ∧ m_inResizeEvent (onResize rip newSize l).2 = true
  ∧ m_rootItem (onResize rip newSize l).2 =
      if negb rip && bool_decide (newSize ≠ layoutSize l)
      then setSize_recursive newSize (m_rootItem l)
      else m_rootItem l.
Proof.
  intros Hguard. rewrite onResize_eq. simpl.
  split; [done|]. case_match; simpl; by rewrite ?Hguard.
Qed.

Lemma onResize_reentrant_witness :
  m_inResizeEvent resizingLayout = true
  ∧ m_view (onResize false (mkQSize 200 200) resizingLayout).2 = m_view resizingLayout
  ∧ m_rootItem (onResize false (mkQSize 200 200) resizingLayout).2
    = setSize_recursive (mkQSize 200 200) (m_rootItem resizingLayout).
Proof.
  split; [reflexivity|].
  pose proof (onResize_reentrant false (mkQSize 200 200) resizingLayout eq_refl)
    as (_ & Hview & _ & Hroot).
  split; [exact Hview | exact Hroot].
Defined.

(** ** Size constraints *)

(** [updateSizeConstraints] hands [setLayoutMinimumSize] the minimum size it
    has just read from the root item, so the test [sz != m_rootItem->minSize()]
    there fails and nothing is done. *)
Lemma updateSizeConstraints_unchanged (rip : bool) (l : Layout) :
  updateSizeConstraints rip l = l.
Proof.
  unfold updateSizeConstraints, setLayoutMinimumSize.
  by rewrite bool_decide_eq_false_2 by (intros H; by apply H).
Qed.

(** Called with another minimum size than the one of the root item,
    [setLayoutMinimumSize] does widen the layout to the minimum size the
    root item had, before it stores the new one. *)
Lemma setLayoutMinimumSize_grows (rip : bool) (sz : QSize) (l : Layout) :
  sz ≠ layoutMinimumSize l →
  layoutSize (setLayoutMinimumSize rip sz l) = expandedTo (layoutSize l) (layoutMinimumSize l)
  ∧ layoutMinimumSize (setLayoutMinimumSize rip sz l) = sz.
Proof.
  intros Hne. unfold setLayoutMinimumSize.
  rewrite bool_decide_eq_true_2 by done. split; [|done].
  unfold setLayoutSize. case_bool_decide as Hsize; simpl.
  - by case_match.
  - unfold layoutMinimumSize. by rewrite Hsize.
Qed.

(** C4: [updateSizeConstraints] on a layout of 100x100 whose tree needs
    200x150 leaves the layout at 100x100, below the minimum. *)
Theorem updateSizeConstraints_leaves_layout_below_minimum :
  layoutMinimumSize crampedLayout = mkQSize 200 150
  ∧ layoutSize crampedLayout = mkQSize 100 100
  ∧ updateSizeConstraints false crampedLayout = crampedLayout
  ∧ layoutSize (updateSizeConstraints false crampedLayout) = mkQSize 100 100
  ∧ ¬ QSize_le (layoutMinimumSize (updateSizeConstraints false crampedLayout))
               (layoutSize (updateSizeConstraints false crampedLayout)).
Proof.
  rewrite updateSizeConstraints_unchanged.
  repeat split. unfold QSize_le; simpl. lia.
Qed.

(** With a restore in progress, [setLayoutSize] still resizes the tree when
    the size differs: what [onResize] skips then is a call with an effect. *)
Lemma setLayoutSize_restoring_resizes_tree (size : QSize) (l : Layout) :
  size ≠ layoutSize l →
  layoutSize (setLayoutSize true size l) = size.
Proof.
  intros Hne. rewrite setLayoutSize_guarded by (by right).
  by rewrite bool_decide_eq_true_2.
Qed.

(** The host view is out of the reach of [deserialize]. *)
Lemma deserialize_view (rip : bool) (saved : LayoutSaver_MultiSplitter) (l l' : Layout) (ok : bool) :
  deserialize rip saved l = Some (ok, l') → m_view l' = m_view l.
Proof.
  unfold deserialize. intros H.
  destruct (deserialize_groups _) as [gs|]; simplify_eq/=.
  by rewrite updateSizeConstraints_unchanged.
Qed.

(** C8: while a layout restore is in progress, [onResize] returns false and
    leaves the layout as it is (it does not call [setLayoutSize]),
    [setLayoutSize] sends the host view no [resize], and [deserialize]
    leaves the host view as it is. *)
Theorem restoreInProgress_suppresses_resizes
    (size : QSize) (l : Layout) (saved : LayoutSaver_MultiSplitter) :
  onResize true size l = (false, l)
  ∧ m_view (setLayoutSize true size l) = m_view l
  ∧ match deserialize true saved l with
    | Some (_, l') => m_view l' = m_view l
    | None => True
    end.
Proof.
  split; [by rewrite onResize_eq|]. split.
  - rewrite setLayoutSize_guarded by (by right). by case_bool_decide.
  - destruct (deserialize true saved l) as [[ok l']|] eqn:Hd; [|done].
    by eapply deserialize_view.
Qed.

(** ** Close events *)

Section CloseEventProperties.

Variable sendEvent : Group → CloseEvent → CloseEvent.

(** The loop, started on an accepted event: either no group vetoes, all of
    them get the event and it stays accepted; or the event goes to the
    groups up to the first one that vetoes, and ends not accepted. *)
Lemma sendToGroups_accepted (gs : list Group) :
  (Forall (λ g, ¬ vetoes sendEvent g) gs
   ∧ sendToGroups sendEvent gs (mkCloseEvent true) = (mkCloseEvent true, gs))
  ∨ (∃ before g after,
       gs = before ++ g :: after
       ∧ Forall (λ g', ¬ vetoes sendEvent g') before
       ∧ vetoes sendEvent g
       ∧ sendToGroups sendEvent gs (mkCloseEvent true) = (mkCloseEvent false, before ++ [g])).
Proof.
  induction gs as [|g gs IH]; simpl.
  - left. by split.
  - destruct (sendEvent g (mkCloseEvent true)) as [[|]] eqn:Hg; simpl.
    + assert (¬ vetoes sendEvent g) as Hnv by (unfold vetoes; by rewrite Hg).
      destruct IH as [[Hall ->] | (before & g' & after & -> & Hbefore & Hveto & ->)].
      * left. split; [by constructor | done].
      * right. exists (g :: before), g', after.
        repeat split; [by constructor | done].
    + right. exists [], g, gs.
      repeat split; [constructor | unfold vetoes; by rewrite Hg].
Qed.

(** C2: [onCloseEvent] sends the close event to the groups in enumeration
    order and stops at the first group that marks it not accepted: either
    no group vetoes, every group receives the event and it ends accepted, or
    the groups up to and including the first vetoing one receive it, no
    later group does, and it ends not accepted. The event ends not accepted
    exactly when some group vetoes. *)
Theorem onCloseEvent_stops_at_first_veto (l : Layout) (e : CloseEvent) :
  ((Forall (λ g, ¬ vetoes sendEvent g) (groups l)
    ∧ onCloseEvent sendEvent l e = (mkCloseEvent true, groups l))
   ∨ (∃ before g after,
        groups l = before ++ g :: after
        ∧ Forall (λ g', ¬ vetoes sendEvent g') before
        ∧ vetoes sendEvent g
        ∧ onCloseEvent sendEvent l e = (mkCloseEvent false, before ++ [g])))
  ∧ (isAccepted (onCloseEvent sendEvent l e).1 = false
     ↔ Exists (vetoes sendEvent) (groups l)).
Proof.
  unfold onCloseEvent. change (CloseEvent_accept e) with (mkCloseEvent true).
  pose proof (sendToGroups_accepted (groups l)) as Hloop.
  split; [exact Hloop|].
  destruct Hloop as [[Hall ->] | (before & g & after & Hgs & _ & Hveto & ->)]; simpl.
  - split; [done|]. intros Hex. apply Exists_exists in Hex as (g & Hin & Hv).
    by eapply Forall_forall in Hall.
  - split; [|done]. intros _. rewrite Hgs. apply Exists_app. right. by left.
Qed.

(** C9: on a layout without groups, [onCloseEvent] leaves the close event
    accepted, and sends it to nobody. *)
Theorem onCloseEvent_no_groups (l : Layout) (e : CloseEvent) :
  groups l = [] →
  isAccepted (onCloseEvent sendEvent l e).1 = true
  ∧ (onCloseEvent sendEvent l e).2 = [].
Proof. unfold onCloseEvent. by intros ->. Qed.

End CloseEventProperties.

(** Three groups, the second of which vetoes: the first two receive the
    event, the third does not, and the event ends not accepted. *)
Example onCloseEvent_second_of_three_vetoes :
  groups workbenchLayout = [outlineGroup; editorGroup; consoleGroup]
  ∧ onCloseEvent (λ g e, if decide (group_id g = "g1") then CloseEvent_ignore e else e)
      workbenchLayout (mkCloseEvent false)
    = (mkCloseEvent false, [outlineGroup; editorGroup]).
Proof. split; reflexivity. Qed.

Lemma onCloseEvent_no_groups_witness :
  groups vacantLayout = []
  ∧ isAccepted
      (onCloseEvent (λ _ e, CloseEvent_ignore e) vacantLayout (mkCloseEvent false)).1 = true.
Proof.
  split; [reflexivity|].
  exact (proj1 (onCloseEvent_no_groups (λ _ e, CloseEvent_ignore e) vacantLayout
                  (mkCloseEvent false) eq_refl)).
Defined.

(** ** Item pointers *)

Lemma Item_at_store (p : ItemPath) (new item : Item) :
  is_Some (Item_at p item) → Item_at p (Item_store p new item) = Some new.
Proof.
  revert item. induction p as [|i p IH]; intros item Hsome; simpl in *; [done|].
  destruct item as [guest | o children]; [by destruct Hsome|].
  rewrite list_lookup_alter_eq.
  destruct (children !! i) as [child|]; simpl in *; [|by destruct Hsome].
  by apply IH.
Qed.

Lemma itemAt_storeItem (p : ItemPath) (new : Item) (root : ItemContainer) :
  is_Some (itemAt p root) → itemAt p (storeItem p new root) = Some new.
Proof.
  destruct p as [|i p]; simpl; [by intros []|].
  rewrite list_lookup_alter_eq.
  destruct (m_children root !! i) as [child|]; simpl; [|by intros []].
  apply Item_at_store.
Qed.

(** ** Restoring a placeholder *)

Lemma restorePlaceholder_leaf (fresh : string) (dw : DockWidget) (item : ItemPath)
    (tabIndex : Z) (l : Layout) (guest : option Group) :
  itemAt item (m_rootItem l) = Some (Leaf guest) →
  ∃ l',
    restorePlaceholder fresh dw item tabIndex l = Some l'
    ∧ itemAt item (m_rootItem l') =
        Some (Leaf (Some (Group_setVisible true
                            (placedBy dw tabIndex (targetGroup fresh guest))))).
Proof.
  intros Hitem. unfold restorePlaceholder. rewrite Hitem. simpl.
  destruct guest as [g|]; simpl; eexists; (split; [reflexivity|]); simpl;
    by rewrite itemAt_storeItem by (by rewrite Hitem).
Qed.

Lemma insert_at_lookup {A} (x : A) (n : nat) (xs : list A) :
  (n ≤ length xs)%nat → (take n xs ++ x :: drop n xs) !! n = Some x.
Proof.
  intros Hn. rewrite lookup_app_r by (rewrite length_take; lia).
  rewrite length_take. by replace (n - n `min` length xs) with 0 by lia.
Qed.

(** C5, as the claim states it, fails: with a tab index above the number of
    dock widgets, the dock widget is not put at position [tabIndex]. *)
Lemma restorePlaceholder_beyond_count_not_at_tabIndex :
  ∃ l' g',
    restorePlaceholder "g9" "search" [0] 5 resizingLayout = Some l'
    ∧ groupAt [0] l' = Some g'
    ∧ dockWidgets g' = ["editor"; "search"]
    ∧ dockWidgets g' !! Z.to_nat 5 = None.
Proof. do 2 eexists. repeat split; reflexivity. Qed.

(** C5 (amended): for an item of the tree of this layout,
    [restorePlaceholder] succeeds and leaves the item hosting a visible
    group: a newly created one when the item was a placeholder, the one it
    hosted otherwise. The dock widget is at position [tabIndex] when
    [0 <= tabIndex <= count], and is appended as the last tab when
    [tabIndex] is -1 or above the count; with [tabIndex = -1] on an empty
    group it is the only tab. *)
Theorem restorePlaceholder_restores (fresh : string) (dw : DockWidget) (item : ItemPath)
    (tabIndex : Z) (l : Layout) (guest : option Group) :
  itemAt item (m_rootItem l) = Some (Leaf guest) →
  ∃ l' g',
    restorePlaceholder fresh dw item tabIndex l = Some l'
    ∧ itemAt item (m_rootItem l') = Some (Leaf (Some g'))
    ∧ group_id g' = group_id (targetGroup fresh guest)
    ∧ (guest = None → targetGroup fresh guest = Group_new fresh)
    ∧ (∀ g, guest = Some g → targetGroup fresh guest = g)
    ∧ group_isVisible g' = true
    ∧ ((0 ≤ tabIndex ≤ Group_dockWidgetCount (targetGroup fresh guest))%Z →
       dockWidgets g' !! Z.to_nat tabIndex = Some dw
       ∧ dockWidgets g' =
           take (Z.to_nat tabIndex) (dockWidgets (targetGroup fresh guest))
           ++ dw :: drop (Z.to_nat tabIndex) (dockWidgets (targetGroup fresh guest)))
    ∧ ((tabIndex = -1 ∨ Group_dockWidgetCount (targetGroup fresh guest) < tabIndex)%Z →
       dockWidgets g' = dockWidgets (targetGroup fresh guest) ++ [dw])
    ∧ (tabIndex = (-1)%Z → dockWidgets (targetGroup fresh guest) = [] →
       dockWidgets g' = [dw]).
Proof.
  intros Hitem.
  destruct (restorePlaceholder_leaf fresh dw item tabIndex l guest Hitem) as (l' & Hl' & Hat).
  exists l', (Group_setVisible true (placedBy dw tabIndex (targetGroup fresh guest))).
  set (target := targetGroup fresh guest) in *.
  assert (∀ g, group_id (placedBy dw tabIndex g) = group_id g) as Hid.
  { intros g. unfold placedBy. by case_match. }
  split; [done|]. split; [done|]. split; [apply Hid|].
  split; [by intros ->|]. split; [by intros g ->|]. split; [done|].
  unfold placedBy, Group_dockWidgetCount in *. simpl.
  split; [|split].
  - intros [Hlo Hhi].
    rewrite (proj2 (Z.eqb_neq _ _)) by lia.
    rewrite (proj2 (Z.geb_le _ _)) by lia. simpl.
    split; [|done]. apply insert_at_lookup. lia.
  - intros [-> | Hgt]; [done|].
    rewrite (proj2 (Z.eqb_neq _ _)) by lia. simpl.
    destruct (_ >=? _)%Z eqn:Hge; [|done].
    apply Z.geb_le in Hge. lia.
  - intros -> Hempty. simpl. by rewrite Hempty.
Qed.

Lemma restorePlaceholder_restores_witness :
  ∃ l' g',
    restorePlaceholder "g9" "search" [1] (-1) resizingLayout = Some l'
    ∧ itemAt [1] (m_rootItem l') = Some (Leaf (Some g'))
    ∧ group_isVisible g' = true
    ∧ dockWidgets g' = ["search"].
Proof.
  destruct (restorePlaceholder_restores "g9" "search" [1] (-1) resizingLayout None eq_refl)
    as (l' & g' & Hl' & Hat & _ & _ & _ & Hvis & _ & _ & Honly).
  exists l', g'. repeat split; try assumption.
  by apply Honly.
Defined.

(** C10: in [restorePlaceholder] on an item of the tree, a tab index above
    the number of dock widgets of the target group has the dock widget
    appended as the last tab by [addTab], as has the tab index -1;
    [insertWidget] at [tabIndex] is used exactly when [tabIndex] is not -1
    and at most that number. *)
Theorem restorePlaceholder_tabIndex_beyond_count (fresh : string) (dw : DockWidget)
    (item : ItemPath) (tabIndex : Z) (l : Layout) (guest : option Group) :
  itemAt item (m_rootItem l) = Some (Leaf guest) →
  ∃ l' g',
    restorePlaceholder fresh dw item tabIndex l = Some l'
    ∧ groupAt item l' = Some g'
    ∧ ((Group_dockWidgetCount (targetGroup fresh guest) < tabIndex)%Z →
       g' = Group_setVisible true (Group_addTab dw (targetGroup fresh guest))
       ∧ dockWidgets g' = dockWidgets (targetGroup fresh guest) ++ [dw]
       ∧ last (dockWidgets g') = Some dw)
    ∧ (tabIndex = (-1)%Z →
       g' = Group_setVisible true (Group_addTab dw (targetGroup fresh guest)))
    ∧ (tabIndex ≠ (-1)%Z →
       (tabIndex ≤ Group_dockWidgetCount (targetGroup fresh guest))%Z →
       g' = Group_setVisible true (Group_insertWidget dw tabIndex (targetGroup fresh guest))).
Proof.
  intros Hitem.
  destruct (restorePlaceholder_leaf fresh dw item tabIndex l guest Hitem) as (l' & Hl' & Hat).
  exists l', (Group_setVisible true (placedBy dw tabIndex (targetGroup fresh guest))).
  split; [done|]. split; [unfold groupAt; by rewrite Hat|].
  unfold placedBy. split; [|split].
  - intros Hgt.
    replace (Group_dockWidgetCount (targetGroup fresh guest) >=? tabIndex)%Z with false
      by (symmetry; apply not_true_is_false; intros Hge%Z.geb_le; lia).
    rewrite andb_false_r. repeat split. simpl. apply last_snoc.
  - by intros ->.
  - intros Hne Hle.
    rewrite (proj2 (Z.eqb_neq _ _)) by done.
    by rewrite (proj2 (Z.geb_le _ _)) by done.
Qed.

Lemma restorePlaceholder_tabIndex_beyond_count_witness :
  ∃ l' g',
    restorePlaceholder "g9" "search" [0] 5 resizingLayout = Some l'
    ∧ groupAt [0] l' = Some g'
    ∧ dockWidgets g' = ["editor"; "search"].
Proof.
  destruct (restorePlaceholder_tabIndex_beyond_count "g9" "search" [0] 5 resizingLayout
              (Some editorGroup) eq_refl)
    as (l' & g' & Hl' & Hat & Hbeyond & _).
  exists l', g'. repeat split; try assumption.
  apply Hbeyond. reflexivity.
Defined.

(** ** Removing an item *)

Lemma Item_parentContainer_snoc (parent : ItemPath) (i : nat) :
  Item_parentContainer (parent ++ [i]) = Some parent.
Proof.
  unfold Item_parentContainer.
  destruct (parent ++ [i]) as [|j p] eqn:Hp.
  - by destruct parent.
  - by rewrite <- Hp, removelast_last.
Qed.

(** C6: [removeItem] with a null item writes a diagnostic, raises no error
    and leaves the layout as it is; with the item number [i] of the
    container at [parent] it has that container remove the item. *)
Theorem removeItem_null_is_noop (l : Layout) :
  removeItem None l = Some (l, [nullptr_item_warning])
  ∧ ∀ (parent : ItemPath) (i : nat),
      removeItem (Some (parent ++ [i])) l =
        (root' ← ItemContainer_removeItem parent i (m_rootItem l);
         Some (with_rootItem root' l, [])).
Proof.
  split; [reflexivity|]. intros parent i. unfold removeItem.
  by rewrite Item_parentContainer_snoc, last_snoc.
Qed.

(** The root item has no parent container to delegate to. *)
Lemma removeItem_root (l : Layout) : removeItem (Some []) l = None.
Proof. reflexivity. Qed.

Example removeItem_first_slot :
  removeItem (Some [0]) resizingLayout =
    Some (with_rootItem
            (mkItemContainer (mkQSize 100 100) (mkQSize 40 40) Horizontal [Leaf None])
            resizingLayout, []).
Proof. reflexivity. Qed.

(** ** Serialization *)

(** Induction on items, with the children of a container covered. *)
Lemma Item_nested_ind (P : Item → Prop) :
  (∀ guest, P (Leaf guest)) →
  (∀ o children, Forall P children → P (Container o children)) →
  ∀ item, P item.
Proof.
  intros Hleaf Hcontainer. fix IH 1. intros [guest | o children].
  - apply Hleaf.
  - apply Hcontainer. induction children as [|c cs IHcs]; constructor.
    + apply IH.
    + exact IHcs.
Qed.

Lemma omap_bind {A B C} (f : B → option C) (F : A → list B) (xs : list A) :
  omap f (xs ≫= F) = xs ≫= λ x, omap f (F x).
Proof.
  induction xs as [|x xs IH]; csimpl; [done|].
  by rewrite omap_app, IH.
Qed.

Lemma groups_children (l : Layout) :
  groups l = m_children (m_rootItem l) ≫= Item_groups.
Proof. apply omap_bind. Qed.

Lemma Item_groups_container (o : Orientation) (children : list Item) :
  Item_groups (Container o children) = children ≫= Item_groups.
Proof. apply omap_bind. Qed.

Lemma serialize_groups_fold (l : Layout) :
  ms_groups (serialize l) = foldl addGroup ∅ (groups l).
Proof.
  unfold serialize, groups; simpl.
  generalize (∅ : gmap string LayoutSaver_Group).
  induction (items_recursive (m_rootItem l)) as [|item items IH]; intros acc; simpl; [done|].
  rewrite IH. by destruct item as [[g|]|o children].
Qed.

Lemma addGroup_fold_other (gs : list Group) (acc : gmap string LayoutSaver_Group) (k : string) :
  k ∉ group_id <$> gs → foldl addGroup acc gs !! k = acc !! k.
Proof.
  revert acc. induction gs as [|g gs IH]; intros acc Hk; simpl; [done|].
  rewrite fmap_cons, not_elem_of_cons in Hk. destruct Hk as [Hne Hk].
  rewrite IH by done. unfold addGroup. by rewrite lookup_insert_ne.
Qed.

Lemma addGroup_fold_member (gs : list Group) (acc : gmap string LayoutSaver_Group) (g : Group) :
  NoDup (group_id <$> gs) → g ∈ gs →
  foldl addGroup acc gs !! group_id g = Some (Group_serialize g).
Proof.
  revert acc. induction gs as [|g0 gs IH]; intros acc Hnd Hin; simpl.
  - by apply elem_of_nil in Hin.
  - rewrite fmap_cons in Hnd. apply NoDup_cons in Hnd as [Hfresh Hnd].
    apply elem_of_cons in Hin as [-> | Hin].
    + rewrite addGroup_fold_other by done.
      unfold addGroup. by rewrite lookup_insert_eq.
    + by apply IH.
Qed.

Lemma addGroup_fold_origin (gs : list Group) (acc : gmap string LayoutSaver_Group)
    (k : string) (saved : LayoutSaver_Group) :
  foldl addGroup acc gs !! k = Some saved →
  acc !! k = Some saved ∨ ∃ g, g ∈ gs ∧ k = group_id g ∧ saved = Group_serialize g.
Proof.
  revert acc. induction gs as [|g gs IH]; intros acc Hk; simpl in *; [by left|].
  apply IH in Hk as [Hk | (g' & Hin & -> & ->)].
  - unfold addGroup in Hk. apply lookup_insert_Some in Hk as [[<- <-] | [_ Hk]].
    + right. exists g. split; [by left | done].
    + by left.
  - right. exists g'. split; [by right | done].
Qed.

(** The first loop ends normally when no record has an empty identifier. *)
Lemma deserialize_groups_total (saved : list LayoutSaver_Group) :
  Forall (λ group, saved_id group ≠ "") saved → is_Some (deserialize_groups saved).
Proof.
  unfold deserialize_groups. generalize (∅ : gmap string Group).
  induction saved as [|group saved IH]; intros acc Hids; simpl; [by eexists|].
  apply Forall_cons in Hids as [Hid Hids].
  rewrite decide_False by done. by apply IH.
Qed.

Lemma fileGroup_fold_keyed (kvs : list (string * LayoutSaver_Group)) (acc : gmap string Group) :
  Forall (λ kv, saved_id kv.2 = kv.1 ∧ kv.1 ≠ "") kvs →
  foldl fileGroup (Some acc) kvs.*2 =
    Some (foldl (λ a kv, <[kv.1 := Group_deserialize kv.2]> a) acc kvs).
Proof.
  revert acc. induction kvs as [|[k group] kvs IH]; intros acc Hkeyed; simpl; [done|].
  apply Forall_cons in Hkeyed as [[Hid Hne] Hkeyed]. simpl in *.
  rewrite decide_False by congruence. rewrite Hid. by apply IH.
Qed.

Lemma insert_fold_lookup {A B} (f : A → B) (kvs : list (string * A))
    (acc : gmap string B) (k : string) :
  NoDup kvs.*1 →
  foldl (λ a kv, <[kv.1 := f kv.2]> a) acc kvs !! k =
    match (list_to_map kvs : gmap string A) !! k with
    | Some v => Some (f v)
    | None => acc !! k
    end.
Proof.
  revert acc. induction kvs as [|[k0 v0] kvs IH]; intros acc Hnd; simpl.
  - by rewrite lookup_empty.
  - apply NoDup_cons in Hnd as [Hfresh Hnd]. rewrite IH by done.
    destruct (decide (k = k0)) as [->|Hne].
    + rewrite (not_elem_of_list_to_map_1 _ _ Hfresh).
      by rewrite !lookup_insert_eq.
    + by rewrite !lookup_insert_ne.
Qed.

(** When every record sits under its own, non-empty identifier, the first
    loop rebuilds each group under the key of its record. *)
Lemma deserialize_groups_keyed (saved : gmap string LayoutSaver_Group) :
  (∀ k group, saved !! k = Some group → saved_id group = k ∧ k ≠ "") →
  deserialize_groups (map_to_list saved).*2 = Some (Group_deserialize <$> saved).
Proof.
  intros Hkeyed. unfold deserialize_groups. rewrite fileGroup_fold_keyed.
  - f_equal. apply map_eq. intros k.
    rewrite insert_fold_lookup by apply NoDup_fst_map_to_list.
    rewrite list_to_map_to_list, lookup_fmap, lookup_empty.
    by destruct (saved !! k).
  - apply Forall_forall. intros [k group] Hin.
    apply elem_of_map_to_list in Hin. by apply Hkeyed.
Qed.

Lemma fill_toVariantMap (rebuilt : gmap string Group) (item : Item) :
  (∀ g, g ∈ Item_groups item → rebuilt !! group_id g = Some (Group_reloaded g)) →
  Item_fillFromVariantMap rebuilt (Item_toVariantMap item) =
    Item_mapGroups Group_reloaded item.
Proof.
  induction item as [guest | o children IH] using Item_nested_ind; intros Hknown.
  - destruct guest as [g|]; simpl; [|done].
    rewrite Hknown; [done|]. unfold Item_groups. simpl. by left.
  - simpl. f_equal. rewrite <- list_fmap_compose.
    apply Forall_fmap_ext. rewrite Forall_forall in IH |- *.
    intros child Hchild. simpl. apply IH; [done|].
    intros g Hg. apply Hknown. rewrite Item_groups_container.
    apply list_elem_of_bind. by exists child.
Qed.

Lemma Item_groups_mapGroups (f : Group → Group) (item : Item) :
  Item_groups (Item_mapGroups f item) = f <$> Item_groups item.
Proof.
  induction item as [guest | o children IH] using Item_nested_ind.
  - by destruct guest.
  - simpl. rewrite !Item_groups_container.
    induction IH as [|child children Hchild _ IHchildren]; csimpl; [done|].
    by rewrite fmap_app, Hchild, IHchildren.
Qed.

Lemma Item_structure_mapGroups (f : Group → Group) (item : Item) :
  (∀ g, group_id (f g) = group_id g) →
  Item_structure (Item_mapGroups f item) = Item_structure item.
Proof.
  intros Hid. induction item as [guest | o children IH] using Item_nested_ind.
  - destruct guest as [g|]; simpl; [|done]. by rewrite Hid.
  - simpl. f_equal. rewrite <- list_fmap_compose. by apply Forall_fmap_ext.
Qed.

Lemma membership_reloaded (g : Group) : membership (Group_reloaded g) = membership g.
Proof. reflexivity. Qed.

Lemma mapGroups_children_groups (f : Group → Group) (children : list Item) :
  (Item_mapGroups f <$> children) ≫= Item_groups = f <$> (children ≫= Item_groups).
Proof.
  induction children as [|child children IH]; csimpl; [done|].
  by rewrite fmap_app, Item_groups_mapGroups, IH.
Qed.

(** The records [serialize] writes sit under the identifier of their group. *)
Lemma serialize_groups_keyed (x : Layout) (k : string) (saved : LayoutSaver_Group) :
  ms_groups (serialize x) !! k = Some saved →
  ∃ g, g ∈ groups x ∧ k = group_id g ∧ saved = Group_serialize g.
Proof.
  rewrite serialize_groups_fold. intros Hk.
  apply addGroup_fold_origin in Hk as [Hk | Hk]; [|done].
  by rewrite lookup_empty in Hk.
Qed.

(** Filled from the record of [x], the tree is that of [x] with every group
    reloaded from its record. *)
Lemma fill_serialized_children (x : Layout) :
  NoDup (group_id <$> groups x) →
  Item_fillFromVariantMap (Group_deserialize <$> ms_groups (serialize x))
    <$> (Item_toVariantMap <$> m_children (m_rootItem x))
  = Item_mapGroups Group_reloaded <$> m_children (m_rootItem x).
Proof.
  intros Hnd. rewrite <- list_fmap_compose.
  apply Forall_fmap_ext, Forall_forall. intros child Hchild. unfold compose.
  apply fill_toVariantMap. intros g Hg.
  rewrite lookup_fmap, serialize_groups_fold.
  rewrite (addGroup_fold_member (groups x) ∅ g Hnd); [done|].
  rewrite groups_children. apply list_elem_of_bind. by exists child.
Qed.

(** [deserialize], once the groups are rebuilt: the tree is filled from the
    record and takes the size of the host view, widened to its minimum
    size. *)
Lemma deserialize_rebuilt (rip : bool) (l : LayoutSaver_MultiSplitter) (this : Layout)
    (rebuilt : gmap string Group) :
  deserialize_groups (map_to_list (ms_groups l)).*2 = Some rebuilt →
  deserialize rip l this =
    Some (true,
          with_rootItem
            (setSize_recursive
               (expandedTo (view_size (m_view this)) (v_minSize (ms_layout l)))
               (fillFromVariantMap (ms_layout l) rebuilt (m_rootItem this)))
            this).
Proof.
  intros Hrebuilt. unfold deserialize. rewrite Hrebuilt. simpl.
  by rewrite updateSizeConstraints_unchanged.
Qed.

(** C1: for a layout tree [x] whose groups have distinct, non-empty
    identifiers, [deserialize] of [serialize x] succeeds on any layout and
    leaves it with the same group identifiers in the same order, the same
    parent/child structure, the same dock widgets and current tab index in
    every group, the minimum size of [x], and a layout size that is no
    smaller than that minimum size. *)
Theorem deserialize_serialize_roundtrip (rip : bool) (x this : Layout) :
  NoDup (group_id <$> groups x) →
  Forall (λ g, group_id g ≠ "") (groups x) →
  ∃ y,
    deserialize rip (serialize x) this = Some (true, y)
    ∧ group_id <$> groups y = group_id <$> groups x
    ∧ structure y = structure x
    ∧ membership <$> groups y = membership <$> groups x
    ∧ layoutMinimumSize y = layoutMinimumSize x
    ∧ QSize_le (layoutMinimumSize y) (layoutSize y).
Proof.
  intros Hnd Hids.
  assert (deserialize_groups (map_to_list (ms_groups (serialize x))).*2
          = Some (Group_deserialize <$> ms_groups (serialize x))) as Hrebuilt.
  { apply deserialize_groups_keyed. intros k saved Hk.
    apply serialize_groups_keyed in Hk as (g & Hg & -> & ->).
    split; [done|]. by eapply Forall_forall in Hids. }
  rewrite (deserialize_rebuilt _ _ _ _ Hrebuilt).
  change (ms_layout (serialize x)) with (toVariantMap (m_rootItem x)).
  eexists. split; [reflexivity|].
  rewrite groups_children. unfold structure, layoutMinimumSize, layoutSize.
  cbn [m_rootItem with_rootItem setSize_recursive fillFromVariantMap toVariantMap
       m_children m_orientation m_minSize m_size v_children v_orientation v_minSize
       ItemContainer_minSize ItemContainer_size].
  rewrite fill_serialized_children, mapGroups_children_groups, <- groups_children by done.
  split; [|split; [|split; [|split]]].
  - rewrite <- list_fmap_compose. by apply list_fmap_ext.
  - f_equal. rewrite <- list_fmap_compose. apply list_fmap_ext.
    intros _ child _. unfold compose. by apply Item_structure_mapGroups.
  - rewrite <- list_fmap_compose. by apply list_fmap_ext.
  - done.
  - apply expandedTo_le_r.
Qed.

Lemma deserialize_serialize_roundtrip_witness :
  NoDup (group_id <$> groups workbenchLayout)
  ∧ ∃ y,
      deserialize false (serialize workbenchLayout) blankLayout = Some (true, y)
      ∧ group_id <$> groups y = ["g3"; "g1"; "g2"]
      ∧ structure y = structure workbenchLayout
      ∧ membership <$> groups y = membership <$> groups workbenchLayout
      ∧ QSize_le (mkQSize 300 200) (layoutSize y).
Proof.
  assert (NoDup (group_id <$> groups workbenchLayout)) as Hnd by compute_done.
  assert (Forall (λ g, group_id g ≠ "") (groups workbenchLayout)) as Hids
    by compute_done.
  split; [exact Hnd|].
  destruct (deserialize_serialize_roundtrip false workbenchLayout blankLayout Hnd Hids)
    as (y & Hy & Hidsy & Hstructure & Hmembers & Hmin & Hsize).
  exists y. rewrite Hmin in Hsize.
  split; [exact Hy|]. split; [exact Hidsy|]. split; [exact Hstructure|].
  split; [exact Hmembers | exact Hsize].
Defined.


(** * Further properties *)

(** ** Sizes of the tree and of the host view *)

Lemma expandedTo_absorbs (a b : QSize) : QSize_le b a → expandedTo a b = a.
Proof.
  destruct a as [wa ha], b as [wb hb]. unfold QSize_le, expandedTo. simpl.
  intros [Hw Hh]. f_equal; lia.
Qed.

Lemma QSize_le_expandedTo (a b : QSize) : QSize_le a (expandedTo a b).
Proof. unfold QSize_le, expandedTo; simpl. lia. Qed.

Lemma QSize_le_refl (a : QSize) : QSize_le a a.
Proof. unfold QSize_le. lia. Qed.

Lemma setLayoutSize_layoutSize (rip : bool) (size : QSize) (l : Layout) :
  layoutSize (setLayoutSize rip size l) = size.
Proof.
  unfold setLayoutSize. case_bool_decide as Hne; simpl; [by case_match | done].
Qed.

(** X1: after [setLayoutSize] the layout has the size asked for, whatever
    the guard and the restore flag; the minimum size and the items are
    untouched, and a second call with the same size changes nothing. *)
Theorem setLayoutSize_sets_size (rip : bool) (size : QSize) (l : Layout) :
  layoutSize (setLayoutSize rip size l) = size
  ∧ layoutMinimumSize (setLayoutSize rip size l) = layoutMinimumSize l
  ∧ items (setLayoutSize rip size l) = items l
  ∧ setLayoutSize rip size (setLayoutSize rip size l) = setLayoutSize rip size l.
Proof.
  pose proof (setLayoutSize_layoutSize rip size l) as Hsize.
  split; [done|]. split; [|split].
  - unfold setLayoutSize. case_bool_decide; [|done]. simpl. by case_match.
  - unfold setLayoutSize. case_bool_decide; [|done]. simpl. by case_match.
  - unfold setLayoutSize at 1. rewrite Hsize.
    by rewrite bool_decide_eq_false_2 by (intros H; by apply H).
Qed.

(** X2: outside a resize notification and a restore, [setLayoutSize] keeps
    the host view in step with the tree: if the view had the size of the
    layout before, it has it after, and it was sent [resize(size)] once when
    the size changed and not at all otherwise. *)
Theorem setLayoutSize_keeps_view_in_step (size : QSize) (l : Layout) :
  m_inResizeEvent l = false →
  view_size (m_view l) = layoutSize l →
  view_size (m_view (setLayoutSize false size l)) = layoutSize (setLayoutSize false size l)
  ∧ view_resizeCalls (m_view (setLayoutSize false size l)) =
      if decide (size = layoutSize l)
      then view_resizeCalls (m_view l)
      else size :: view_resizeCalls (m_view l).
Proof.
  intros Hguard Hstep. unfold setLayoutSize.
  case_bool_decide as Hne; simpl.
  - rewrite Hguard. simpl. by rewrite decide_False.
  - by rewrite decide_True.
Qed.

Lemma setLayoutSize_keeps_view_in_step_witness :
  view_size (m_view (setLayoutSize false (mkQSize 300 200) crampedLayout)) = mkQSize 300 200
  ∧ view_resizeCalls (m_view (setLayoutSize false (mkQSize 300 200) crampedLayout))
    = [mkQSize 300 200].
Proof.
  destruct (setLayoutSize_keeps_view_in_step (mkQSize 300 200) crampedLayout eq_refl eq_refl)
    as [Hstep Hcalls].
  split; [exact Hstep | exact Hcalls].
Defined.

(** X3: [setLayoutMinimumSize] stores the minimum size it is given and
    never shrinks the layout; when the minimum size differs from the stored
    one, the layout ends at least as large as the minimum size it had
    before the call. *)
Theorem setLayoutMinimumSize_never_shrinks (rip : bool) (sz : QSize) (l : Layout) :
  layoutMinimumSize (setLayoutMinimumSize rip sz l) = sz
  ∧ QSize_le (layoutSize l) (layoutSize (setLayoutMinimumSize rip sz l))
  ∧ (sz ≠ layoutMinimumSize l →
     QSize_le (layoutMinimumSize l) (layoutSize (setLayoutMinimumSize rip sz l))).
Proof.
  unfold setLayoutMinimumSize. case_bool_decide as Hne.
  - pose proof (setLayoutSize_layoutSize rip
                  (expandedTo (layoutSize l) (ItemContainer_minSize (m_rootItem l))) l)
      as Hsize.
    change (layoutSize (with_rootItem ?r ?l')) with (m_size r).
    change (m_size (ItemContainer_setMinSize ?s ?r)) with (m_size r).
    change (m_size (m_rootItem ?l')) with (layoutSize l'). rewrite Hsize.
    split; [done|]. split; [apply QSize_le_expandedTo|].
    intros _. apply expandedTo_le_r.
  - split; [done|]. split; [apply QSize_le_refl|].
    intros Hdiff. by destruct Hdiff.
Qed.

(** X4: the growth in [setLayoutMinimumSize] is to the minimum size stored
    before the call, not to the one being set: on a layout that is already
    as large as its stored minimum size, the layout size and the host view
    stay as they are, however large the new minimum size is. *)
Theorem setLayoutMinimumSize_keeps_size (rip : bool) (sz : QSize) (l : Layout) :
  QSize_le (layoutMinimumSize l) (layoutSize l) →
  layoutSize (setLayoutMinimumSize rip sz l) = layoutSize l
  ∧ m_view (setLayoutMinimumSize rip sz l) = m_view l
  ∧ layoutMinimumSize (setLayoutMinimumSize rip sz l) = sz.
Proof.
  intros Hfits. unfold setLayoutMinimumSize. case_bool_decide as Hne.
  - change (ItemContainer_minSize (m_rootItem l)) with (layoutMinimumSize l).
    rewrite (expandedTo_absorbs _ _ Hfits).
    unfold setLayoutSize. by rewrite bool_decide_eq_false_2 by (intros H; by apply H).
  - done.
Qed.

Lemma setLayoutMinimumSize_keeps_size_witness :
  layoutSize (setLayoutMinimumSize false (mkQSize 300 300) resizingLayout) = mkQSize 100 100
  ∧ layoutMinimumSize (setLayoutMinimumSize false (mkQSize 300 300) resizingLayout)
    = mkQSize 300 300.
Proof.
  assert (QSize_le (layoutMinimumSize resizingLayout) (layoutSize resizingLayout)) as Hfits
    by (unfold QSize_le; simpl; lia).
  destruct (setLayoutMinimumSize_keeps_size false (mkQSize 300 300) resizingLayout Hfits)
    as (Hsize & _ & Hmin).
  split; [exact Hsize | exact Hmin].
Defined.

(** With no restore in progress, [onResize] brings the tree to the new size
    of the host view, whatever the state it is called in; it returns false
    and leaves the items, the minimum size, the host view and the guard as
    they were. *)
Lemma onResize_tracks_size (newSize : QSize) (l : Layout) :
  (onResize false newSize l).1 = false
  ∧ layoutSize (onResize false newSize l).2 = newSize
  ∧ items (onResize false newSize l).2 = items l
  ∧ layoutMinimumSize (onResize false newSize l).2 = layoutMinimumSize l
  ∧ m_view (onResize false newSize l).2 = m_view l
  ∧ m_inResizeEvent (onResize false newSize l).2 = m_inResizeEvent l.
Proof.
  rewrite onResize_eq. simpl. case_bool_decide as Hne; simpl; [done|].
  by rewrite Hne.
Qed.

Lemma onViewSignal_frame (rip : bool) (l : Layout) (signal : ViewSignal) :
  m_view (onViewSignal rip l signal) = m_view l
  ∧ m_inResizeEvent (onViewSignal rip l signal) = m_inResizeEvent l
  ∧ items (onViewSignal rip l signal) = items l
  ∧ layoutMinimumSize (onViewSignal rip l signal) = layoutMinimumSize l.
Proof.
  destruct signal as [|size]; unfold onViewSignal.
  - by rewrite updateSizeConstraints_unchanged.
  - rewrite onResize_eq. simpl. by case_match.
Qed.

Lemma onViewSignal_size (rip : bool) (l : Layout) (signal : ViewSignal) :
  layoutSize (onViewSignal rip l signal) =
    match signal with
    | Resized size => if rip then layoutSize l else size
    | LayoutInvalidated => layoutSize l
    end.
Proof.
  destruct signal as [|size]; unfold onViewSignal.
  - by rewrite updateSizeConstraints_unchanged.
  - destruct rip; [by rewrite onResize_eq|].
    by destruct (onResize_tracks_size size l) as (_ & -> & _).
Qed.

(** X5: the connections made by the constructor never feed back: over any
    run of [layoutInvalidated] and [resized] signals of the host view, the
    layout sends the host view no [resize] and leaves it, the guard, the
    items and the minimum size as they were; the layout ends with the size
    of the last [resized] signal, or with its own when there was none or a
    restore is in progress. *)
Theorem viewSignals_never_resize_view (rip : bool) (signals : list ViewSignal) (l : Layout) :
  m_view (foldl (onViewSignal rip) l signals) = m_view l
  ∧ m_inResizeEvent (foldl (onViewSignal rip) l signals) = m_inResizeEvent l
  ∧ items (foldl (onViewSignal rip) l signals) = items l
  ∧ layoutMinimumSize (foldl (onViewSignal rip) l signals) = layoutMinimumSize l
  ∧ layoutSize (foldl (onViewSignal rip) l signals) =
      if rip then layoutSize l else default (layoutSize l) (lastResized signals).
Proof.
  revert l. induction signals as [|signal signals IH]; intros l.
  - simpl. by destruct rip.
  - simpl. destruct (IH (onViewSignal rip l signal)) as (Hv & Hg & Hi & Hm & Hs).
    destruct (onViewSignal_frame rip l signal) as (Hv1 & Hg1 & Hi1 & Hm1).
    rewrite Hv, Hg, Hi, Hm, Hs, Hv1, Hg1, Hi1, Hm1, onViewSignal_size.
    repeat split. unfold lastResized.
    destruct rip; [by destruct signal|].
    destruct signal as [|size]; simpl; [done|].
    rewrite last_cons. by destruct (last _).
Qed.

(** ** Restoring a placeholder, continued *)

Lemma restorePlaceholder_leaf_eq (fresh : string) (dw : DockWidget) (item : ItemPath)
    (tabIndex : Z) (l : Layout) (guest : option Group) :
  itemAt item (m_rootItem l) = Some (Leaf guest) →
  restorePlaceholder fresh dw item tabIndex l =
    Some (with_rootItem
            (storeItem item
               (Leaf (Some (Group_setVisible true
                              (placedBy dw tabIndex (targetGroup fresh guest)))))
               (m_rootItem l))
            l).
Proof.
  intros Hitem. unfold restorePlaceholder. rewrite Hitem. by destruct guest.
Qed.

Lemma restorePlaceholder_needs_leaf (fresh : string) (dw : DockWidget)
    (item : ItemPath) (tabIndex : Z) (l : Layout) :
  is_Some (restorePlaceholder fresh dw item tabIndex l) →
  ∃ guest, itemAt item (m_rootItem l) = Some (Leaf guest).
Proof.
  unfold restorePlaceholder.
  destruct (itemAt item (m_rootItem l)) as [[guest | o children]|]; simpl.
  - intros _. by exists guest.
  - by intros [? ?].
  - by intros [? ?].
Qed.

(** X6: [restorePlaceholder] goes through exactly on the items of the tree
    that are leaves: a pointer that leads nowhere in the tree or to a
    container, the root item included, ends the run (null dereference or
    failed [Q_ASSERT(group)]). *)
Theorem restorePlaceholder_succeeds_iff_leaf (fresh : string) (dw : DockWidget)
    (item : ItemPath) (tabIndex : Z) (l : Layout) :
  is_Some (restorePlaceholder fresh dw item tabIndex l)
  ↔ ∃ guest, itemAt item (m_rootItem l) = Some (Leaf guest).
Proof.
  split.
  - apply restorePlaceholder_needs_leaf.
  - intros [guest Hitem]. rewrite (restorePlaceholder_leaf_eq _ _ _ _ _ _ Hitem). by eexists.
Qed.

(** ** Enumerations and counts *)

Lemma bind_alter {A B} (F : A → list B) (g : A → A) (xs : list A) (i : nat) (x : A) :
  xs !! i = Some x →
  ∃ left right,
    xs ≫= F = left ++ F x ++ right
    ∧ alter g i xs ≫= F = left ++ F (g x) ++ right.
Proof.
  revert i. induction xs as [|y xs IH]; intros i Hi; [done|].
  destruct i as [|i]; simpl in Hi.
  - simplify_eq. exists [], (xs ≫= F). by csimpl.
  - destruct (IH i Hi) as (left & right & Hxs & Halter).
    exists (F y ++ left), right. csimpl.
    rewrite Hxs. simpl. rewrite Halter. by rewrite <- !(assoc_L (++)).
Qed.

(** Writing a leaf over a leaf changes one entry of the enumeration. *)
Lemma Item_store_items (p : ItemPath) (guest guest' : option Group) (it : Item) :
  Item_at p it = Some (Leaf guest) →
  ∃ before after,
    Item_items_recursive it = before ++ Leaf guest :: after
    ∧ Item_items_recursive (Item_store p (Leaf guest') it) = before ++ Leaf guest' :: after.
Proof.
  revert it. induction p as [|i p IH]; intros it Hat; simpl in *.
  - simplify_eq. by exists [], [].
  - destruct it as [g | o children]; [done|].
    destruct (children !! i) as [child|] eqn:Hchild; simpl in *; [|done].
    destruct (IH child Hat) as (b & a & Hb & Ha).
    destruct (bind_alter Item_items_recursive (Item_store p (Leaf guest')) children i child
                Hchild) as (left & right & Hl & Hr).
    exists (left ++ b), (a ++ right). simpl.
    rewrite Hl, Hr, Hb, Ha. by rewrite <- !(assoc_L (++)).
Qed.

Lemma storeItem_items (p : ItemPath) (guest guest' : option Group) (root : ItemContainer) :
  itemAt p root = Some (Leaf guest) →
  ∃ before after,
    items_recursive root = before ++ Leaf guest :: after
    ∧ items_recursive (storeItem p (Leaf guest') root) = before ++ Leaf guest' :: after.
Proof.
  destruct p as [|i p]; [done|]. simpl. intros Hat.
  destruct (m_children root !! i) as [child|] eqn:Hchild; simpl in *; [|done].
  destruct (Item_store_items p guest guest' child Hat) as (b & a & Hb & Ha).
  destruct (bind_alter Item_items_recursive (Item_store p (Leaf guest')) (m_children root)
              i child Hchild) as (left & right & Hl & Hr).
  exists (left ++ b), (a ++ right). unfold items_recursive. simpl.
  rewrite Hl, Hr, Hb, Ha. by rewrite <- !(assoc_L (++)).
Qed.

Lemma Layout_dockWidgets_bind (l : Layout) :
  Layout_dockWidgets l = groups l ≫= dockWidgets.
Proof.
  unfold Layout_dockWidgets.
  assert (∀ gs acc, foldl (λ dws group, dws ++ dockWidgets group) acc gs
                    = acc ++ (gs ≫= dockWidgets)) as Hfold.
  { induction gs as [|g gs IH]; intros acc; csimpl.
    - by rewrite app_nil_r.
    - by rewrite IH, (assoc_L (++)). }
  by rewrite Hfold.
Qed.

Lemma placedBy_dockWidgets (dw : DockWidget) (tabIndex : Z) (target : Group) :
  ∃ n, dockWidgets (placedBy dw tabIndex target)
       = take n (dockWidgets target) ++ dw :: drop n (dockWidgets target).
Proof.
  unfold placedBy. case_match.
  - by exists (Z.to_nat tabIndex).
  - exists (length (dockWidgets target)). simpl.
    by rewrite firstn_all, drop_all.
Qed.

(** X8: [restorePlaceholder] adds the dock widget to the dock widgets of the
    layout and takes none away: the groups of the layout are those of
    before, in their order, with the group of the item in the place of the
    item, and [dockWidgets()] is, up to order, the dock widget together with
    the former [dockWidgets()]. *)
Theorem restorePlaceholder_adds_dockWidget (fresh : string) (dw : DockWidget)
    (item : ItemPath) (tabIndex : Z) (l : Layout) (guest : option Group) :
  itemAt item (m_rootItem l) = Some (Leaf guest) →
  ∃ l' g' before after,
    restorePlaceholder fresh dw item tabIndex l = Some l'
    ∧ groupAt item l' = Some g'
    ∧ groups l = before ++ option_list guest ++ after
    ∧ groups l' = before ++ g' :: after
    ∧ Layout_dockWidgets l' ≡ₚ dw :: Layout_dockWidgets l.
Proof.
  intros Hitem.
  rewrite (restorePlaceholder_leaf_eq _ _ _ _ _ _ Hitem).
  set (g' := Group_setVisible true (placedBy dw tabIndex (targetGroup fresh guest))).
  destruct (storeItem_items item guest (Some g') (m_rootItem l) Hitem)
    as (b & a & Hb & Ha).
  exists (with_rootItem (storeItem item (Leaf (Some g')) (m_rootItem l)) l), g',
         (omap Item_asGroupController b), (omap Item_asGroupController a).
  assert (groups l = omap Item_asGroupController b ++ option_list guest
                     ++ omap Item_asGroupController a) as Hgroups.
  { unfold groups. rewrite Hb, omap_app. by destruct guest. }
  assert (groups (with_rootItem (storeItem item (Leaf (Some g')) (m_rootItem l)) l)
          = omap Item_asGroupController b ++ g' :: omap Item_asGroupController a) as Hgroups'.
  { unfold groups, with_rootItem. simpl. by rewrite Ha, omap_app. }
  split; [done|]. split.
  { unfold groupAt. simpl. by rewrite itemAt_storeItem by (by rewrite Hitem). }
  split; [done|]. split; [done|].
  rewrite !Layout_dockWidgets_bind, Hgroups', Hgroups, !bind_app. csimpl.
  destruct (placedBy_dockWidgets dw tabIndex (targetGroup fresh guest)) as [n Hn].
  change (dockWidgets g') with (dockWidgets (placedBy dw tabIndex (targetGroup fresh guest))).
  rewrite Hn.
  assert (option_list guest ≫= dockWidgets = dockWidgets (targetGroup fresh guest)) as ->.
  { destruct guest; csimpl; [by rewrite app_nil_r | done]. }
  rewrite <- (take_drop n (dockWidgets (targetGroup fresh guest))) at 3.
  rewrite <- !(assoc_L (++)). simpl.
  by rewrite <- !Permutation_middle.
Qed.

Lemma restorePlaceholder_adds_dockWidget_witness :
  ∃ l',
    restorePlaceholder "g9" "search" [1] (-1) resizingLayout = Some l'
    ∧ Layout_dockWidgets l' ≡ₚ "search" :: Layout_dockWidgets resizingLayout.
Proof.
  destruct (restorePlaceholder_adds_dockWidget "g9" "search" [1] (-1) resizingLayout None
              eq_refl) as (l' & g' & before & after & Hl' & _ & _ & _ & Hperm).
  exists l'. split; [exact Hl' | exact Hperm].
Defined.

Lemma Item_count_recursive_items (it : Item) :
  Item_count_recursive it = Z.of_nat (length (Item_items_recursive it)).
Proof.
  induction it as [guest | o children IH] using Item_nested_ind; [done|]. simpl.
  induction IH as [|child children Hchild _ IHchildren]; csimpl; [done|].
  rewrite length_app, Hchild, IHchildren. lia.
Qed.

Lemma Item_visibleCount_recursive_groups (it : Item) :
  Item_visibleCount_recursive it = Z.of_nat (length (Item_groups it)).
Proof.
  induction it as [guest | o children IH] using Item_nested_ind.
  - by destruct guest.
  - rewrite Item_groups_container. simpl.
    induction IH as [|child children Hchild _ IHchildren]; csimpl; [done|].
    rewrite length_app, Hchild, IHchildren. lia.
Qed.

Lemma Item_items_recursive_leaves (it : Item) :
  Forall (λ leaf, Item_isContainer leaf = false) (Item_items_recursive it).
Proof.
  induction it as [guest | o children IH] using Item_nested_ind; simpl.
  - by repeat constructor.
  - induction IH as [|child children Hchild _ IHchildren]; csimpl; [constructor|].
    by apply Forall_app.
Qed.

Lemma leaves_placeholders_groups (leaves : list Item) :
  Forall (λ leaf, Item_isContainer leaf = false) leaves →
  length (filter Item_isPlaceholder leaves) + length (omap Item_asGroupController leaves)
  = length leaves.
Proof.
  induction 1 as [|leaf leaves Hleaf _ IH]; [done|].
  destruct leaf as [[g|]|o children]; [| |done].
  - rewrite filter_cons_False by (simpl; auto). csimpl. lia.
  - rewrite filter_cons_True by done. csimpl. lia.
Qed.

Lemma counts_as_lengths (l : Layout) :
  count l = Z.of_nat (length (items l))
  ∧ visibleCount l = Z.of_nat (length (groups l)).
Proof.
  split.
  - unfold count, count_recursive, items, items_recursive.
    induction (m_children (m_rootItem l)) as [|child children IH]; csimpl; [done|].
    rewrite length_app, Item_count_recursive_items, IH. lia.
  - rewrite groups_children. unfold visibleCount, visibleCount_recursive.
    induction (m_children (m_rootItem l)) as [|child children IH]; csimpl; [done|].
    rewrite length_app, Item_visibleCount_recursive_groups, IH. lia.
Qed.

(** X9: the counts of the layout agree with its enumerations: [count()]
    is the number of [items()], [visibleCount()] the number of [groups()],
    and [placeholderCount()] the number of the items that are placeholders;
    the latter is never negative and never above [count()]. *)
Theorem placeholderCount_counts_placeholders (l : Layout) :
  count l = Z.of_nat (length (items l))
  ∧ visibleCount l = Z.of_nat (length (groups l))
  ∧ placeholderCount l = Z.of_nat (length (filter Item_isPlaceholder (items l)))
  ∧ (0 ≤ placeholderCount l ≤ count l)%Z.
Proof.
  destruct (counts_as_lengths l) as (Hcount & Hvisible).
  assert (Forall (λ leaf, Item_isContainer leaf = false) (items l)) as Hleaves.
  { unfold items, items_recursive.
    induction (m_children (m_rootItem l)) as [|child children IH]; csimpl; [constructor|].
    apply Forall_app. split; [apply Item_items_recursive_leaves | done]. }
  pose proof (leaves_placeholders_groups (items l) Hleaves) as Hsum.
  change (omap Item_asGroupController (items l)) with (groups l) in Hsum.
  unfold placeholderCount. rewrite Hcount, Hvisible. lia.
Qed.

(** X10: [restorePlaceholder] keeps [count()]; on a placeholder it raises
    [visibleCount()] by one and lowers [placeholderCount()] by one, and on
    an item that hosts a group it leaves both as they are. *)
Theorem restorePlaceholder_counts (fresh : string) (dw : DockWidget) (item : ItemPath)
    (tabIndex : Z) (l : Layout) (guest : option Group) :
  itemAt item (m_rootItem l) = Some (Leaf guest) →
  ∃ l',
    restorePlaceholder fresh dw item tabIndex l = Some l'
    ∧ count l' = count l
    ∧ visibleCount l' = (visibleCount l + if Item_isPlaceholder (Leaf guest) then 1 else 0)%Z
    ∧ placeholderCount l' = (placeholderCount l - if Item_isPlaceholder (Leaf guest) then 1 else 0)%Z.
Proof.
  intros Hitem.
  rewrite (restorePlaceholder_leaf_eq _ _ _ _ _ _ Hitem).
  set (g' := Group_setVisible true (placedBy dw tabIndex (targetGroup fresh guest))).
  destruct (storeItem_items item guest (Some g') (m_rootItem l) Hitem)
    as (b & a & Hb & Ha).
  eexists. split; [reflexivity|].
  set (l' := with_rootItem (storeItem item (Leaf (Some g')) (m_rootItem l)) l).
  destruct (counts_as_lengths l) as (Hc & Hv).
  destruct (counts_as_lengths l') as (Hc' & Hv').
  assert (count l' = count l) as Hcount.
  { rewrite Hc, Hc'. unfold items, l'. simpl. rewrite Ha, Hb, !length_app. simpl. lia. }
  assert (visibleCount l' = (visibleCount l + if Item_isPlaceholder (Leaf guest) then 1 else 0)%Z) as Hvisible.
  { rewrite Hv, Hv'. unfold groups, l'. simpl. rewrite Ha, Hb, !omap_app, !length_app.
    destruct guest; simpl; lia. }
  split; [done|]. split; [done|].
  unfold placeholderCount. rewrite Hcount, Hvisible. destruct guest; lia.
Qed.

Lemma restorePlaceholder_counts_witness :
  ∃ l',
    restorePlaceholder "g9" "search" [1] (-1) resizingLayout = Some l'
    ∧ count l' = 2%Z
    ∧ placeholderCount l' = 0%Z.
Proof.
  destruct (restorePlaceholder_counts "g9" "search" [1] (-1) resizingLayout None eq_refl)
    as (l' & Hl' & Hcount & _ & Hplaceholders).
  exists l'. split; [exact Hl'|]. split; [exact Hcount | exact Hplaceholders].
Defined.

(** ** Serialization, continued *)

Lemma VariantItem_nested_ind (P : VariantItem → Prop) :
  (∀ guestId, P (VLeaf guestId)) →
  (∀ o children, Forall P children → P (VContainer o children)) →
  ∀ v, P v.
Proof.
  intros Hleaf Hcontainer. fix IH 1. intros [guestId | o children].
  - apply Hleaf.
  - apply Hcontainer. induction children as [|c cs IHcs]; constructor.
    + apply IH.
    + exact IHcs.
Qed.

Lemma guestIds_toVariantMap (it : Item) :
  VariantItem_guestIds (Item_toVariantMap it) = group_id <$> Item_groups it.
Proof.
  induction it as [guest | o children IH] using Item_nested_ind.
  - by destruct guest.
  - rewrite Item_groups_container. simpl.
    induction IH as [|child children Hchild _ IHchildren]; csimpl; [done|].
    by rewrite fmap_app, Hchild, IHchildren.
Qed.

Lemma guestIds_serialize (l : Layout) :
  guestIds (serialize l) = group_id <$> groups l.
Proof.
  rewrite groups_children. unfold guestIds, serialize, toVariantMap. simpl.
  induction (m_children (m_rootItem l)) as [|child children IH]; csimpl; [done|].
  by rewrite fmap_app, guestIds_toVariantMap, IH.
Qed.

Lemma addGroup_fold_dom (gs : list Group) (acc : gmap string LayoutSaver_Group) (k : string) :
  is_Some (foldl addGroup acc gs !! k) ↔ is_Some (acc !! k) ∨ k ∈ group_id <$> gs.
Proof.
  revert acc. induction gs as [|g gs IH]; intros acc; csimpl.
  - rewrite elem_of_nil. naive_solver.
  - rewrite IH, elem_of_cons. unfold addGroup.
    rewrite lookup_insert_is_Some. destruct (decide (group_id g = k)); naive_solver.
Qed.

(** X11: what [serialize] writes is closed: the identifiers its tree
    description names are those of the groups of the layout, in enumeration
    order; the group map holds a record exactly for these identifiers, each
    record under the identifier it carries; so the record never refers to a
    group it does not hold. *)
Theorem serialize_is_self_contained (l : Layout) :
  guestIds (serialize l) = group_id <$> groups l
  ∧ (∀ id, is_Some (ms_groups (serialize l) !! id) ↔ id ∈ group_id <$> groups l)
  ∧ (∀ id saved, ms_groups (serialize l) !! id = Some saved → saved_id saved = id)
  ∧ ¬ referencesUnknownGroup (serialize l).
Proof.
  assert (∀ id, is_Some (ms_groups (serialize l) !! id) ↔ id ∈ group_id <$> groups l)
    as Hdom.
  { intros id. rewrite serialize_groups_fold, addGroup_fold_dom, lookup_empty.
    split; [intros [[? ?]|?]; done | by right]. }
  split; [apply guestIds_serialize|]. split; [exact Hdom|]. split.
  - intros id saved Hid. by apply serialize_groups_keyed in Hid as (g & _ & -> & ->).
  - intros (id & Hin & Hnone). rewrite guestIds_serialize in Hin.
    apply Hdom in Hin as [saved Hsaved]. congruence.
Qed.

Lemma fileGroup_fold_None (saved : list LayoutSaver_Group) :
  foldl fileGroup None saved = None.
Proof. by induction saved. Qed.

Lemma fileGroup_fold_fails (saved : list LayoutSaver_Group) (acc : gmap string Group) :
  foldl fileGroup (Some acc) saved = None ↔ Exists (λ group, saved_id group = "") saved.
Proof.
  revert acc. induction saved as [|group saved IH]; intros acc; simpl.
  - split; [done | by intros ?%Exists_nil].
  - rewrite Exists_cons. destruct (decide (saved_id group = "")) as [Hempty|Hid].
    + rewrite fileGroup_fold_None. naive_solver.
    + rewrite IH. naive_solver.
Qed.

Lemma fileGroup_fold_QT_NO_DEBUG (saved : list LayoutSaver_Group) (acc : gmap string Group) :
  Forall (λ group, saved_id group ≠ "") saved →
  foldl fileGroup (Some acc) saved = Some (foldl fileGroup_QT_NO_DEBUG acc saved).
Proof.
  revert acc. induction saved as [|group saved IH]; intros acc Hids; simpl; [done|].
  apply Forall_cons in Hids as [Hid Hids].
  rewrite decide_False by done. by apply IH.
Qed.

(** X12: what an empty identifier in the group map does depends on the
    build. With [Q_ASSERT] active (a debug build), [deserialize] ends on the
    failed [Q_ASSERT(!group.id.isEmpty())] exactly when some record of the
    group map carries an empty identifier. With [QT_NO_DEBUG], where the
    assertion expands to nothing, [deserialize] returns true on every
    record. On a record without empty identifiers the two builds give the
    same result. *)
Theorem deserialize_fails_iff_empty_id (rip : bool) (saved : LayoutSaver_MultiSplitter)
    (this : Layout) :
  (deserialize rip saved this = None
   ↔ ∃ k group, ms_groups saved !! k = Some group ∧ saved_id group = "")
  ∧ (deserialize_QT_NO_DEBUG rip saved this).1 = true
  ∧ ((∀ k group, ms_groups saved !! k = Some group → saved_id group ≠ "") →
     deserialize rip saved this = Some (deserialize_QT_NO_DEBUG rip saved this)).
Proof.
  split; [|split; [done|]].
  - unfold deserialize.
    destruct (deserialize_groups _) as [rebuilt|] eqn:Hgroups; simpl.
    + split; [done|]. intros (k & group & Hk & Hempty).
      assert (deserialize_groups (map_to_list (ms_groups saved)).*2 = None) as Hnone;
        [|congruence].
      apply fileGroup_fold_fails, Exists_exists. exists group. split; [|done].
      apply list_elem_of_fmap. exists (k, group). split; [done|].
      by apply elem_of_map_to_list.
    + split; [|done]. intros _.
      apply fileGroup_fold_fails, Exists_exists in Hgroups as (group & Hin & Hempty).
      apply list_elem_of_fmap in Hin as ([k group'] & -> & Hin).
      exists k, group'. split; [by apply elem_of_map_to_list | done].
  - intros Hids. unfold deserialize, deserialize_QT_NO_DEBUG, deserialize_groups.
    rewrite fileGroup_fold_QT_NO_DEBUG; [done|].
    apply Forall_fmap, Forall_forall. intros [k group] Hin. simpl.
    apply elem_of_map_to_list in Hin. by eapply Hids.
Qed.

(** X13: on a record without empty identifiers, [deserialize] returns true
    and gives the layout the size of its host view, widened to the minimum
    size of the record; the size stored in the record plays no part. The
    minimum size and the orientation are those of the record, and the host
    view and the guard are as before. *)
Theorem deserialize_takes_view_size (rip : bool) (saved : LayoutSaver_MultiSplitter)
    (this : Layout) :
  (∀ k group, ms_groups saved !! k = Some group → saved_id group ≠ "") →
  ∃ y,
    deserialize rip saved this = Some (true, y)
    ∧ layoutSize y = expandedTo (view_size (m_view this)) (v_minSize (ms_layout saved))
    ∧ layoutMinimumSize y = v_minSize (ms_layout saved)
    ∧ QSize_le (view_size (m_view this)) (layoutSize y)
    ∧ QSize_le (layoutMinimumSize y) (layoutSize y)
    ∧ m_orientation (m_rootItem y) = v_orientation (ms_layout saved)
    ∧ m_view y = m_view this
    ∧ m_inResizeEvent y = m_inResizeEvent this.
Proof.
  intros Hids.
  destruct (deserialize_groups_total (map_to_list (ms_groups saved)).*2) as [rebuilt Hrebuilt].
  { apply Forall_fmap, Forall_forall. intros [k group] Hin. simpl.
    apply elem_of_map_to_list in Hin. by eapply Hids. }
  rewrite (deserialize_rebuilt _ _ _ _ Hrebuilt). eexists. split; [reflexivity|].
  unfold layoutSize, layoutMinimumSize. simpl.
  repeat split; try apply QSize_le_expandedTo; apply expandedTo_le_r.
Qed.

Lemma deserialize_takes_view_size_witness :
  ∃ y,
    deserialize false danglingRecord blankLayout = Some (true, y)
    ∧ layoutSize y = mkQSize 300 200.
Proof.
  destruct (deserialize_takes_view_size false danglingRecord blankLayout)
    as (y & Hy & Hsize & _).
  - intros k group Hk. unfold danglingRecord, ms_groups in Hk.
    apply lookup_singleton_Some in Hk as [_ <-]. discriminate.
  - exists y. split; [exact Hy | exact Hsize].
Defined.

Lemma Item_groups_fill (rebuilt : gmap string Group) (v : VariantItem) :
  Item_groups (Item_fillFromVariantMap rebuilt v)
  = omap (λ id, rebuilt !! id) (VariantItem_guestIds v).
Proof.
  induction v as [guestId | o children IH] using VariantItem_nested_ind.
  - destruct guestId as [id|]; [|done]. unfold Item_groups. simpl.
    by destruct (rebuilt !! id).
  - simpl. rewrite Item_groups_container.
    induction IH as [|child children Hchild _ IHchildren]; csimpl; [done|].
    by rewrite omap_app, Hchild, IHchildren.
Qed.

Lemma groups_fill (v : VariantMap) (rebuilt : gmap string Group) (root : ItemContainer)
    (this : Layout) (size : QSize) :
  groups (with_rootItem (setSize_recursive size (fillFromVariantMap v rebuilt root)) this)
  = omap (λ id, rebuilt !! id) (v_children v ≫= VariantItem_guestIds).
Proof.
  rewrite groups_children. simpl.
  induction (v_children v) as [|child children IH]; csimpl; [done|].
  by rewrite omap_app, Item_groups_fill, IH.
Qed.

Lemma fileGroup_fold_origin (saved : list LayoutSaver_Group) (acc rebuilt : gmap string Group)
    (k : string) (g : Group) :
  foldl fileGroup (Some acc) saved = Some rebuilt →
  rebuilt !! k = Some g →
  acc !! k = Some g
  ∨ ∃ group, group ∈ saved ∧ saved_id group = k ∧ g = Group_deserialize group.
Proof.
  revert acc. induction saved as [|group saved IH]; intros acc Hfold Hk; simpl in *.
  - left. by simplify_eq.
  - destruct (decide (saved_id group = "")) as [Hempty|Hid].
    + by rewrite fileGroup_fold_None in Hfold.
    + destruct (IH _ Hfold Hk) as [Hacc | (group' & Hin & Hid' & Hg)].
      * apply lookup_insert_Some in Hacc as [[<- <-] | [_ Hacc]].
        -- right. exists group. split; [by left | done].
        -- by left.
      * right. exists group'. split; [by right | done].
Qed.

(** X14: [deserialize] makes up no group: every group of the layout it
    leaves is the group rebuilt from a record of the group map, is named by
    a leaf of the tree description under the identifier that record
    carries, and an identifier of the tree description that no record
    carries gives no group. *)
Theorem deserialize_groups_come_from_records (rip : bool)
    (saved : LayoutSaver_MultiSplitter) (this y : Layout) (ok : bool) :
  deserialize rip saved this = Some (ok, y) →
  (∀ g, g ∈ groups y →
     group_id g ∈ guestIds saved
     ∧ ∃ k group, ms_groups saved !! k = Some group
                  ∧ saved_id group = group_id g
                  ∧ g = Group_deserialize group)
  ∧ (∀ id, (∀ k group, ms_groups saved !! k = Some group → saved_id group ≠ id) →
           id ∉ group_id <$> groups y).
Proof.
  intros Hy.
  destruct (deserialize_groups (map_to_list (ms_groups saved)).*2) as [rebuilt|] eqn:Hrebuilt;
    [|unfold deserialize in Hy; by rewrite Hrebuilt in Hy].
  rewrite (deserialize_rebuilt _ _ _ _ Hrebuilt) in Hy. simplify_eq.
  assert (∀ g, g ∈ omap (λ id, rebuilt !! id) (guestIds saved) →
            group_id g ∈ guestIds saved
            ∧ ∃ k group, ms_groups saved !! k = Some group
                         ∧ saved_id group = group_id g
                         ∧ g = Group_deserialize group) as Hfrom.
  { intros g (id & Hid & Hg)%list_elem_of_omap.
    destruct (fileGroup_fold_origin _ _ _ _ _ Hrebuilt Hg)
      as [Hempty | (group & Hin & <- & ->)]; [by rewrite lookup_empty in Hempty|].
    split; [done|].
    apply list_elem_of_fmap in Hin as ([k group'] & -> & Hin).
    exists k, group'. split; [by apply elem_of_map_to_list | done]. }
  rewrite groups_fill. split; [exact Hfrom|].
  intros id Hunknown (g & -> & Hg)%list_elem_of_fmap.
  destruct (Hfrom g Hg) as (_ & k & group & Hk & Hid & _).
  by eapply Hunknown.
Qed.

Lemma deserialize_groups_come_from_records_witness :
  ∃ y,
    deserialize false danglingRecord blankLayout = Some (true, y)
    ∧ "ghost" ∉ group_id <$> groups y.
Proof.
  eexists. split; [by vm_compute|].
  eapply (deserialize_groups_come_from_records false danglingRecord blankLayout _ true).
  - by vm_compute.
  - intros k group Hk. unfold danglingRecord, ms_groups in Hk.
    apply lookup_singleton_Some in Hk as [_ <-]. discriminate.
Defined.



Lemma Group_serialize_deserialize (saved : LayoutSaver_Group) :
  Group_serialize (Group_deserialize saved) = saved.
Proof. by destruct saved. Qed.

Lemma toVariantMap_fill (rebuilt : gmap string Group) (v : VariantItem) :
  (∀ id, id ∈ VariantItem_guestIds v → ∃ g, rebuilt !! id = Some g ∧ group_id g = id) →
  Item_toVariantMap (Item_fillFromVariantMap rebuilt v) = v.
Proof.
  induction v as [guestId | o children IH] using VariantItem_nested_ind; intros Hknown.
  - destruct guestId as [id|]; [|done]. simpl.
    destruct (Hknown id) as (g & -> & Hid); [by left|]. simpl. by rewrite Hid.
  - simpl. f_equal. rewrite <- list_fmap_compose.
    rewrite <- (list_fmap_id children) at 2.
    apply Forall_fmap_ext. rewrite Forall_forall in IH |- *.
    intros child Hchild. unfold compose. apply IH; [done|].
    intros id Hid. apply Hknown. simpl. apply list_elem_of_bind. by exists child.
Qed.

Lemma addGroup_fold_consistent (records : gmap string LayoutSaver_Group) (gs : list Group)
    (acc : gmap string LayoutSaver_Group) (k : string) :
  (∀ g, g ∈ gs → records !! group_id g = Some (Group_serialize g)) →
  foldl addGroup acc gs !! k =
    if decide (k ∈ group_id <$> gs) then records !! k else acc !! k.
Proof.
  revert acc. induction gs as [|g gs IH]; intros acc Hrecords.
  - reflexivity.
  - rewrite fmap_cons. simpl. rewrite IH by (intros g' Hg'; apply Hrecords; by right).
    destruct (decide (k ∈ group_id <$> gs)) as [Hin|Hout].
    + by rewrite decide_True by (by right).
    + unfold addGroup. destruct (decide (group_id g = k)) as [<-|Hne].
      * rewrite lookup_insert_eq, decide_True by (by left).
        symmetry. apply Hrecords. by left.
      * rewrite lookup_insert_ne by done.
        rewrite decide_False; [done|]. rewrite elem_of_cons. naive_solver.
Qed.

(** X15: the round trip from a record and back: for a record whose group
    records sit under their own, non-empty identifiers and whose tree
    description names exactly the identifiers of the group map,
    [serialize] after [deserialize] gives the group map of the record and
    its tree description, orientation and minimum size back; the size it
    writes is that of the host view, widened to that minimum size. *)
Theorem serialize_deserialize_roundtrip (rip : bool) (saved : LayoutSaver_MultiSplitter)
    (this : Layout) :
  (∀ k group, ms_groups saved !! k = Some group → saved_id group = k ∧ k ≠ "") →
  (∀ id, id ∈ guestIds saved ↔ is_Some (ms_groups saved !! id)) →
  ∃ y,
    deserialize rip saved this = Some (true, y)
    ∧ ms_groups (serialize y) = ms_groups saved
    ∧ v_children (ms_layout (serialize y)) = v_children (ms_layout saved)
    ∧ v_orientation (ms_layout (serialize y)) = v_orientation (ms_layout saved)
    ∧ v_minSize (ms_layout (serialize y)) = v_minSize (ms_layout saved)
    ∧ v_size (ms_layout (serialize y))
      = expandedTo (view_size (m_view this)) (v_minSize (ms_layout saved)).
Proof.
  intros Hkeyed Hclosed.
  pose proof (deserialize_groups_keyed _ Hkeyed) as Hrebuilt.
  rewrite (deserialize_rebuilt _ _ _ _ Hrebuilt). eexists. split; [reflexivity|].
  set (rebuilt := Group_deserialize <$> ms_groups saved).
  assert (∀ id, id ∈ guestIds saved →
            ∃ group, ms_groups saved !! id = Some group ∧ saved_id group = id
                     ∧ rebuilt !! id = Some (Group_deserialize group)) as Hknown.
  { intros id [group Hgroup]%Hclosed. exists group.
    split; [done|]. split; [by apply Hkeyed in Hgroup as [? _]|].
    unfold rebuilt. by rewrite lookup_fmap, Hgroup. }
  split; [|split; [|done]].
  - rewrite serialize_groups_fold, groups_fill.
    fold (guestIds saved). apply map_eq. intros k.
    rewrite (addGroup_fold_consistent (ms_groups saved)).
    + case_decide as Hin; [done|]. rewrite lookup_empty.
      destruct (ms_groups saved !! k) as [group|] eqn:Hk; [|done].
      destruct Hin. assert (k ∈ guestIds saved) as Hid by (apply Hclosed; by eexists).
      destruct (Hknown k Hid) as (group' & Hk' & Hid' & Hr).
      apply list_elem_of_fmap. exists (Group_deserialize group'). split; [by rewrite <- Hid'|].
      apply list_elem_of_omap. by exists k.
    + intros g (id & Hid & Hg)%list_elem_of_omap.
      destruct (Hknown id Hid) as (group & Hk & Hid' & Hr).
      rewrite Hr in Hg. simplify_eq. by rewrite Group_serialize_deserialize.
  - change (v_children (ms_layout (serialize ?l)))
      with (Item_toVariantMap <$> m_children (m_rootItem l)). simpl.
    rewrite <- list_fmap_compose.
    rewrite <- (list_fmap_id (v_children (ms_layout saved))) at 2.
    apply Forall_fmap_ext, Forall_forall. intros child Hchild. unfold compose.
    apply toVariantMap_fill. intros id Hid.
    destruct (Hknown id) as (group & Hk & Hid' & Hr).
    { unfold guestIds. apply list_elem_of_bind. by exists child. }
    exists (Group_deserialize group). by split.
Qed.

Lemma serialize_deserialize_roundtrip_witness :
  ∃ y,
    deserialize false (serialize workbenchLayout) blankLayout = Some (true, y)
    ∧ ms_groups (serialize y) = ms_groups (serialize workbenchLayout)
    ∧ v_children (ms_layout (serialize y))
      = v_children (ms_layout (serialize workbenchLayout)).
Proof.
  destruct (serialize_deserialize_roundtrip false (serialize workbenchLayout) blankLayout)
    as (y & Hy & Hgroups & Hchildren & _).
  - intros k group Hk. apply serialize_groups_keyed in Hk as (g & Hg & -> & ->).
    split; [reflexivity|].
    assert (Forall (λ g, group_id g ≠ "") (groups workbenchLayout)) as Hids by compute_done.
    by eapply Forall_forall in Hids.
  - intros id. rewrite guestIds_serialize, serialize_groups_fold, addGroup_fold_dom,
      lookup_empty.
    split; [by right | intros [[? ?]|?]; done].
  - exists y. split; [exact Hy|]. split; [exact Hgroups | exact Hchildren].
Defined.

(** ** Finding the main window *)

Lemma find_type_cons (type : ViewType) (v : ParentView) (above : list ParentView) :
  firstParentOfType type (v :: above) =
    if decide (pv_type v = type) then Some (pv_controller v)
    else firstParentOfType type above.
Proof.
  unfold firstParentOfType. simpl.
  destruct (decide (pv_type v = type)) as [Heq|Hne].
  - by rewrite bool_decide_eq_true_2.
  - by rewrite bool_decide_eq_false_2.
Qed.

(** X16: on QtWidgets, honouring nesting only finds more: when
    [mainWindow(false)] finds a main window, [mainWindow(true)] finds one
    too, and the same one unless the parent view is a main window that is
    itself named "MyCentralWidget"; so [isInMainWindow(false)] implies
    [isInMainWindow(true)]. *)
Theorem mainWindow_nesting_finds_more (ancestors : list ParentView) (mw : nat) :
  mainWindow true ancestors false = Some (Some mw) →
  isInMainWindow true ancestors false = Some true
  ∧ isInMainWindow true ancestors true = Some true
  ∧ ∃ mw',
      mainWindow true ancestors true = Some (Some mw')
      ∧ ((∀ pw above, ancestors = pw :: above →
            ¬ (pv_type pw = ViewType_MainWindow ∧ pv_objectName pw = "MyCentralWidget")) →
         mw' = mw).
Proof.
  intros Hfound.
  assert (∃ mw',
            mainWindow true ancestors true = Some (Some mw')
            ∧ ((∀ pw above, ancestors = pw :: above →
                  ¬ (pv_type pw = ViewType_MainWindow
                     ∧ pv_objectName pw = "MyCentralWidget")) →
               mw' = mw)) as (mw' & Hnested & Hsame).
  { unfold mainWindow in *. simpl in *.
    destruct ancestors as [|pw above]; [done|].
    rewrite find_type_cons.
    destruct (decide (pv_objectName pw = "MyCentralWidget")) as [Hname|Hname].
    - destruct above as [|ppw above]; [done|].
      unfold asMainWindowController in Hfound.
      destruct (decide (pv_type ppw = ViewType_MainWindow)) as [Hppw|]; [|done].
      simplify_eq. rewrite find_type_cons.
      destruct (decide (pv_type pw = ViewType_MainWindow)) as [Hpw|Hpw].
      + eexists. split; [done|]. intros Hnot.
        by destruct (Hnot pw (ppw :: above) eq_refl).
      + rewrite decide_True by done. by eexists.
    - unfold asMainWindowController in Hfound.
      destruct (decide (pv_type pw = ViewType_MainWindow)) as [Hpw|]; [|done].
      simplify_eq. by eexists. }
  unfold isInMainWindow. rewrite Hfound, Hnested. simpl.
  split; [done|]. split; [done|]. by exists mw'.
Qed.

Lemma mainWindow_nesting_finds_more_witness :
  mainWindow true [mkParentView ViewType_None "MyCentralWidget" 3;
                   mkParentView ViewType_MainWindow "window" 7] true
  = Some (Some 7).
Proof.
  destruct (mainWindow_nesting_finds_more
              [mkParentView ViewType_None "MyCentralWidget" 3;
               mkParentView ViewType_MainWindow "window" 7] 7 eq_refl)
    as (_ & _ & mw' & Hnested & Hsame).
  rewrite Hnested. rewrite Hsame; [reflexivity|].
  intros pw above Heq [Htype _]. by simplify_eq.
Defined.

(** X17: [mainWindow] dereferences a null pointer in one situation only:
    nesting is not honoured (the flag is false or the platform is not
    QtWidgets) and the parent view is named "MyCentralWidget" and has no
    parent itself. On a platform other than QtWidgets the flag
    [honourNesting] makes no difference. *)
Theorem mainWindow_null_parent (isQtWidgets honourNesting : bool)
    (ancestors : list ParentView) :
  (mainWindow isQtWidgets ancestors honourNesting = None
   ↔ honourNesting && isQtWidgets = false
     ∧ ∃ pw, ancestors = [pw] ∧ pv_objectName pw = "MyCentralWidget")
  ∧ mainWindow false ancestors honourNesting = mainWindow false ancestors false.
Proof.
  split; [|unfold mainWindow; by rewrite !andb_false_r].
  unfold mainWindow. simpl.
  destruct (honourNesting && isQtWidgets).
  - split; [by case_match | by intros [? _]].
  - destruct ancestors as [|pw above].
    + split; [done | by intros (_ & pw & ? & _)].
    + destruct (decide (pv_objectName pw = "MyCentralWidget")) as [Hname|Hname].
      * destruct above as [|ppw above].
        -- split; [|done]. intros _. split; [done|]. by exists pw.
        -- split; [done | by intros (_ & pw' & ? & _)].
      * split; [by case_match|]. intros (_ & pw' & Heq & Hname'). by simplify_eq.
Qed.

(** ** Tearing down *)

(** X18: the destructor of the layout never dereferences a null root item:
    from every state it returns, with the layout out of the registry; it
    deletes the root item at most once, and when it does, [m_rootItem] is
    null afterwards. *)
Theorem Layout_destructor_safe (this : LayoutLifetime) :
  ∃ this',
    Layout_destructor this = Some this'
    ∧ lt_registered this' = false
    ∧ (lt_rootItemsDeleted this' ≤ S (lt_rootItemsDeleted this))%nat
    ∧ (lt_rootItemsDeleted this' = S (lt_rootItemsDeleted this) → lt_rootItem this' = None).
Proof.
  destruct this as [[host|] [view|] deleted n registered];
    unfold Layout_destructor, viewAboutToBeDeleted; simpl;
    destruct deleted; simpl; try case_decide; simpl;
    eexists; (split; [reflexivity|]); simpl; repeat split; try lia; done.
Qed.

(** X19: once the host view has announced its deletion (the destructor of
    the QtQuick drop area calls [viewAboutToBeDeleted] while the layout has
    a view), the destructor of the layout does not announce it again: it
    deletes nothing more and leaves [m_rootItem] as it found it, so the
    root item is deleted once at most over both destructors. *)
Theorem Layout_destructor_after_view (this this1 : LayoutLifetime) (view : nat) :
  lt_view this = Some view →
  DropArea_destructor false this = Some this1 →
  m_viewDeleted this1 = true
  ∧ (lt_rootItem this = Some view → lt_rootItem this1 = None)
  ∧ ∃ this2,
      Layout_destructor this1 = Some this2
      ∧ lt_rootItemsDeleted this2 = lt_rootItemsDeleted this1
      ∧ lt_rootItem this2 = lt_rootItem this1
      ∧ (lt_rootItemsDeleted this2 ≤ S (lt_rootItemsDeleted this))%nat.
Proof.
  intros Hview Hannounced.
  destruct this as [[host|] v deleted n registered]; simpl in *; subst v;
    unfold DropArea_destructor, viewAboutToBeDeleted in Hannounced; simpl in *; [|done].
  case_decide; simplify_eq; unfold Layout_destructor; simpl.
  - split; [done|]. split; [done|]. eexists. split; [reflexivity|]. simpl. repeat split; lia.
  - split; [done|]. split; [by intros ?; simplify_eq|].
    eexists. split; [reflexivity|]. simpl. repeat split; lia.
Qed.

Lemma Layout_destructor_after_view_witness :
  ∃ this1 this2,
    DropArea_destructor false (mkLayoutLifetime (Some 4) (Some 4) false 0 true) = Some this1
    ∧ Layout_destructor this1 = Some this2
    ∧ lt_rootItemsDeleted this2 = 1.
Proof.
  eexists. 
  destruct (Layout_destructor_after_view (mkLayoutLifetime (Some 4) (Some 4) false 0 true)
              _ 4 eq_refl eq_refl) as (_ & _ & this2 & Hdestructor & Hcount & _).
  exists this2. split; [reflexivity|]. split; [exact Hdestructor | exact Hcount].
Defined.

(** ** The floating window widget *)

(** X20: over any run of events, [FloatingWindowWidget::event] connects
    [screenChanged] of the window handle once at most: at the first
    [QEvent::Show], unless the connection was already there; and it emits
    [windowStateChanged] once for every [QEvent::WindowStateChange]. *)
Theorem FloatingWindowWidget_connects_once (events : list QEventType)
    (this : FloatingWindowWidget) :
  fw_screenChangedConnects (foldl (λ w ev, FloatingWindowWidget_event ev w) this events)
  = (fw_screenChangedConnects this
     + if bool_decide (QEvent_Show ∈ events) && negb (m_screenChangedConnection this)
       then 1 else 0)%nat
  ∧ m_screenChangedConnection (foldl (λ w ev, FloatingWindowWidget_event ev w) this events)
    = m_screenChangedConnection this || bool_decide (QEvent_Show ∈ events)
  ∧ fw_windowStateChanged (foldl (λ w ev, FloatingWindowWidget_event ev w) this events)
    = (fw_windowStateChanged this
       + length (filter (λ ev, ev = QEvent_WindowStateChange) events))%nat.
Proof.
  revert this. induction events as [|ev events IH]; intros this.
  - simpl. rewrite orb_false_r. repeat split; lia.
  - simpl. destruct (IH (FloatingWindowWidget_event ev this)) as (Hc & Hs & Hw).
    rewrite Hc, Hs, Hw. clear IH Hc Hs Hw.
    destruct this as [connected emitted connects].
    destruct (bool_decide (QEvent_Show ∈ events)) eqn:Hshow;
      [apply bool_decide_eq_true in Hshow | apply bool_decide_eq_false in Hshow].
    + rewrite (bool_decide_eq_true_2 (QEvent_Show ∈ ev :: events)) by (by right).
      destruct ev, connected; simpl;
        rewrite ?filter_cons_True, ?filter_cons_False by done; simpl;
        repeat split; lia.
    + destruct ev, connected; simpl;
        rewrite ?filter_cons_True, ?filter_cons_False by done; simpl;
        rewrite ?(bool_decide_eq_true_2 (QEvent_Show ∈ QEvent_Show :: events)) by (by left);
        rewrite ?(bool_decide_eq_false_2 (QEvent_WindowStateChange ∈ _ :: events)),
                ?(bool_decide_eq_false_2 (QEvent_Show ∈ QEvent_WindowStateChange :: events)),
                ?(bool_decide_eq_false_2 (QEvent_Show ∈ QEvent_Other :: events))
          by (rewrite elem_of_cons; naive_solver);
        simpl; repeat split; lia.
Qed.

(** ** The callbacks of the item bindings *)

(** X21: [registerVirtualMethodCallback] stores the callback for the
    virtual method that the identifier names and for no other: afterwards
    that method has the callback, and the nine others have the one they
    had; an identifier that names none of the ten methods changes
    nothing. *)
Theorem registerVirtualMethodCallback_sets_one (wrapper : Item_wrapper) (callback : Z) :
  (∀ m m', callbackOf m' (registerVirtualMethodCallback wrapper callback (methodId m))
           = if decide (m' = m) then callback else callbackOf m' wrapper)
  ∧ (∀ id, (∀ m, methodId m ≠ id) →
           registerVirtualMethodCallback wrapper callback id = wrapper).
Proof.
  split.
  - intros m m'. destruct wrapper, m, m'; reflexivity.
  - intros id Hnone. destruct wrapper. unfold registerVirtualMethodCallback.
    rewrite (proj2 (Z.eqb_neq id 760)) by (intros ->; by apply (Hnone VM_checkSanity)).
    rewrite (proj2 (Z.eqb_neq id 767)) by (intros ->; by apply (Hnone VM_dumpLayout)).
    rewrite (proj2 (Z.eqb_neq id 784)) by (intros ->; by apply (Hnone VM_isVisible)).
    rewrite (proj2 (Z.eqb_neq id 793)) by (intros ->; by apply (Hnone VM_maxSizeHint)).
    rewrite (proj2 (Z.eqb_neq id 794)) by (intros ->; by apply (Hnone VM_minSize)).
    rewrite (proj2 (Z.eqb_neq id 811))
      by (intros ->; by apply (Hnone VM_setGeometry_recursive)).
    rewrite (proj2 (Z.eqb_neq id 813)) by (intros ->; by apply (Hnone VM_setHostView)).
    rewrite (proj2 (Z.eqb_neq id 814)) by (intros ->; by apply (Hnone VM_setIsVisible)).
    rewrite (proj2 (Z.eqb_neq id 828))
      by (intros ->; by apply (Hnone VM_updateWidgetGeometries)).
    by rewrite (proj2 (Z.eqb_neq id 829))
      by (intros ->; by apply (Hnone VM_visibleCount_recursive)).
Qed.

(** X22: a callback registered for [minSize] (identifier 794) is what a
    virtual call of [Item_wrapper::minSize] runs, while the entry point
    [c_KDDockWidgets__Core__Item__minSize] still runs the method of
    [Core::Item]; registering the null pointer brings [Core::Item] back;
    and [visibleCount_recursive] is served as before. *)
Theorem minSize_callback_dispatch (wrapper : Item_wrapper) (callback : Z) :
  callback ≠ 0%Z →
  Item_wrapper_minSize (registerVirtualMethodCallback wrapper callback 794)
  = DartCallback callback
  ∧ c_Item_minSize (registerVirtualMethodCallback wrapper callback 794) = CppItem
  ∧ Item_wrapper_minSize
      (registerVirtualMethodCallback
         (registerVirtualMethodCallback wrapper callback 794) 0 794)
    = CppItem
  ∧ Item_wrapper_visibleCount_recursive (registerVirtualMethodCallback wrapper callback 794)
    = Item_wrapper_visibleCount_recursive wrapper.
Proof.
  intros Hcallback. destruct wrapper. simpl.
  unfold Item_wrapper_minSize, viaCallback. simpl.
  by rewrite decide_True by done.
Qed.

Lemma minSize_callback_dispatch_witness :
  Item_wrapper_minSize
    (registerVirtualMethodCallback (mkItem_wrapper 0 0 0 0 0 0 0 0 0 0) 4096 794)
  = DartCallback 4096.
Proof.
  apply (minSize_callback_dispatch (mkItem_wrapper 0 0 0 0 0 0 0 0 0 0) 4096).
  discriminate.
Defined.
